(** * Conway's Game of Life: the engine and the RLE decoder of [game-of-life.js]

    A shallow embedding of the [GameOfLife] class ([#createGrid], [cell],
    [#neighbours], [update], [start], [stop]) and of [loadRle] / [rleFiller],
    followed by the properties of the specification that concern them.

    Conventions of the embedding.
    - A JavaScript number that may carry a fraction ([size], the arguments
      of [cell]) is a [number]: NaN, the two infinities, or a rational.
      Arithmetic on the rationals is exact and the sign of zero is not kept.
    - A number known to be integral (a result of [Math.round], [Math.ceil],
      a grid dimension, a neighbour count) is an [integral].
    - An exception is a [Throw]; code that threads a mutable variable
      through callbacks runs in the state-and-exception monad [M].
    - An array that the code allocates and then fills at the indices
      0, 1, 2, ... in that order is the list of the values written. *)

From Stdlib Require Import ZArith QArith Qround String Ascii Lia Bool.
From stdpp Require Import base list.

Local Open Scope Z_scope.

(** ** Exceptions *)

Inductive error :=
| TypeError (msg : string)
| RangeError (msg : string)
| SyntaxError (msg : string).

Inductive res (A : Type) :=
| Ok (a : A)
| Throw (e : error).
Arguments Ok {A} a.
Arguments Throw {A} e.


(** ** State and exceptions *)

Definition M (S A : Type) : Type := S -> res (A * S).

Definition ret {S A} (a : A) : M S A := fun s => Ok (a, s).

Definition bind {S A B} (m : M S A) (k : A -> M S B) : M S B :=
  fun s => match m s with
           | Ok (a, s') => k a s'
           | Throw e => Throw e
           end.

Definition lift {S A} (r : res A) : M S A :=
  fun s => match r with Ok a => Ok (a, s) | Throw e => Throw e end.

Definition get {S} : M S S := fun s => Ok (s, s).
Definition put {S} (s : S) : M S unit := fun _ => Ok (tt, s).

Declare Scope monad_scope.
Delimit Scope monad_scope with monad.
Notation "x <- m ;; k" := (bind m (fun x => k))
  (at level 100, m at next level, right associativity) : monad_scope.
Local Open Scope monad_scope.

(** [for (let i = start; i < start + n; i += 1) acc = body(i, acc)] *)
Fixpoint for_range {S A} (n : nat) (start : Z)
    (body : Z -> A -> M S A) (acc : A) : M S A :=
  match n with
  | O => ret acc
  | Datatypes.S n' => acc' <- body start acc ;; for_range n' (start + 1) body acc'
  end.

(** ** Numbers *)

Inductive number :=
| NaN
| PInf
| NInf
| Fin (q : Q).

Inductive integral :=
| INaN
| IPInf
| INInf
| Int (z : Z).

Definition of_integral (n : integral) : number :=
  match n with
  | INaN => NaN
  | IPInf => PInf
  | INInf => NInf
  | Int z => Fin (inject_Z z)
  end.
Coercion of_integral : integral >-> number.

(** [Math.round]: the nearest integer, ties towards +oo. *)
Definition Math_round (n : number) : integral :=
  match n with
  | NaN => INaN
  | PInf => IPInf
  | NInf => INInf
  | Fin q => Int (Qfloor (q + (1 # 2)))
  end.

Definition Math_ceil (n : number) : integral :=
  match n with
  | NaN => INaN
  | PInf => IPInf
  | NInf => INInf
  | Fin q => Int (Qceiling q)
  end.

Definition isNaN (n : number) : bool :=
  match n with NaN => true | _ => false end.

Definition isFinite (n : number) : bool :=
  match n with Fin _ => true | _ => false end.

(** [n < 0] *)
Definition negative (n : number) : bool :=
  match n with
  | NInf => true
  | Fin q => negb (Qle_bool 0 q)
  | _ => false
  end.

(** [a / b] *)
Definition num_div (a b : number) : number :=
  match a, b with
  | NaN, _ | _, NaN => NaN
  | (PInf | NInf), (PInf | NInf) => NaN
  | PInf, Fin q => if Qle_bool 0 q then PInf else NInf
  | NInf, Fin q => if Qle_bool 0 q then NInf else PInf
  | Fin _, (PInf | NInf) => Fin 0
  | Fin p, Fin q =>
      if Qeq_bool q 0 then
        if Qeq_bool p 0 then NaN else if Qle_bool 0 p then PInf else NInf
      else Fin (p / q)
  end.

(** [a < b] on integral numbers; any comparison with NaN is false. *)
Definition ilt (a b : integral) : bool :=
  match a, b with
  | INaN, _ | _, INaN => false
  | _, INInf => false
  | INInf, _ => true
  | IPInf, _ => false
  | Int _, IPInf => true
  | Int x, Int y => x <? y
  end.

Definition ile (a b : integral) : bool :=
  match a, b with
  | INaN, _ | _, INaN => false
  | INInf, _ => true
  | _, IPInf => true
  | IPInf, _ => false
  | Int _, INInf => false
  | Int x, Int y => x <=? y
  end.

Definition iadd (a b : integral) : integral :=
  match a, b with
  | INaN, _ | _, INaN => INaN
  | IPInf, INInf | INInf, IPInf => INaN
  | IPInf, _ | _, IPInf => IPInf
  | INInf, _ | _, INInf => INInf
  | Int x, Int y => Int (x + y)
  end.

Definition ineg (a : integral) : integral :=
  match a with
  | INaN => INaN
  | IPInf => INInf
  | INInf => IPInf
  | Int x => Int (- x)
  end.

Definition isub (a b : integral) : integral := iadd a (ineg b).

(** The remainder operator [%]: the result has the sign of the dividend
    (truncating division); NaN for a zero divisor. *)
Definition irem (a b : integral) : integral :=
  match a, b with
  | Int x, Int y => if y =? 0 then INaN else Int (Z.rem x y)
  | Int x, (IPInf | INInf) => Int x
  | _, _ => INaN
  end.

(** [Math.floor(a / 2)] on an integral number. *)
Definition floor_half (a : integral) : integral :=
  match a with
  | Int x => Int (x / 2)
  | other => other
  end.

(** ** Cells and arrays *)

Definition dead : Z := 0.
Definition alive : Z := 1.

(** What reading an array slot gives: the number stored, or [undefined]
    when the index is outside the array (or the slot is a hole). *)
Inductive cellvalue :=
| Undefined
| Num (z : Z).

(** An operand of [+]: [undefined] converts to NaN. *)
Definition to_number (v : cellvalue) : integral :=
  match v with
  | Undefined => INaN
  | Num z => Int z
  end.

(** [a[i]] for a number [i]: only an index in [0, a.length) names a slot. *)
Definition array_get {A} (a : list A) (i : integral) : option A :=
  match i with
  | Int z => if z <? 0 then None else a !! Z.to_nat z
  | _ => None
  end.

(** [new Array(n)] accepts only an integer in [0, 2^32 - 1]. *)
Definition max_array_length : Z := 4294967295.

Definition new_Array (n : integral) : res nat :=
  match n with
  | Int z =>
      if (0 <=? z) && (z <=? max_array_length) then Ok (Z.to_nat z)
      else Throw (RangeError "Invalid array length")
  | _ => Throw (RangeError "Invalid array length")
  end.

(** ** The engine *)

(** A JavaScript value as far as the constructor inspects it. *)
Inductive value :=
| VUndefined
| VNull
| VBoolean (b : bool)
| VNumber (n : number)
| VString (s : string)
| VObject.

Definition truthy (v : value) : bool :=
  match v with
  | VUndefined | VNull => false
  | VBoolean b => b
  | VNumber NaN => false
  | VNumber (Fin q) => negb (Qeq_bool q 0)
  | VNumber _ => true
  | VString s => negb (String.eqb s "")
  | VObject => true
  end.

(** The private fields of [GameOfLife]. The canvas is used for drawing
    only and is left out; [handler] is the timer id held by [#handler]. *)
Record GameOfLife := {
  cellSize : number;
  cellColor : string;
  width : integral;
  height : integral;
  torus : value;
  grid : list (list Z);
  framesPerSecond : value;
  handler : option nat
}.

Definition set_grid (g : GameOfLife) (cells : list (list Z)) : GameOfLife :=
  {| cellSize := cellSize g; cellColor := cellColor g;
     width := width g; height := height g; torus := torus g;
     grid := cells;
     framesPerSecond := framesPerSecond g; handler := handler g |}.

Definition set_handler (g : GameOfLife) (h : option nat) : GameOfLife :=
  {| cellSize := cellSize g; cellColor := cellColor g;
     width := width g; height := height g; torus := torus g;
     grid := grid g;
     framesPerSecond := framesPerSecond g; handler := h |}.

(** A filler callback [(i, j, game) => truthy/falsy], with its own state. *)
Definition filler (S : Type) : Type := Z -> Z -> GameOfLife -> M S bool.

(** [#createGrid(filler)]; [None] is a filler that is not a function. *)
Definition createGrid {S} (g : GameOfLife) (f : option (filler S))
    : M S GameOfLife :=
  w <- lift (new_Array (width g)) ;;
  cells <- for_range w 0 (fun i cells =>
      h <- lift (new_Array (height g)) ;;
      row <- match f with
             | Some fn =>
                 for_range h 0 (fun j row =>
                   b <- fn i j g ;;
                   ret (row ++ [if b : bool then alive else dead])) []
             | None => ret (replicate h dead)
             end ;;
      ret (cells ++ [row])) [] ;;
  ret (set_grid g cells).

(** [this.#grid[i][j]] *)
Definition grid_at (g : GameOfLife) (i j : integral) : res cellvalue :=
  match array_get (grid g) i with
  | None => Throw (TypeError "Cannot read properties of undefined")
  | Some row =>
      Ok (match array_get row j with
          | Some z => Num z
          | None => Undefined
          end)
  end.

(** One coordinate of [cell] in toroidal mode:
    [i < 0 ? (dim + i % dim) : (i % dim)]. *)
Definition wrap (dim i : integral) : integral :=
  if ilt i (Int 0) then iadd dim (irem i dim) else irem i dim.

Definition cell (g : GameOfLife) (i j : number) : res cellvalue :=
  let i := Math_round i in
  let j := Math_round j in
  if isNaN i || negb (isFinite i) || isNaN j || negb (isFinite j) then
    Ok (Num dead)
  else if truthy (torus g) then
    grid_at g (wrap (width g) i) (wrap (height g) j)
  else if ilt i (Int 0) || ile (width g) i
          || ilt j (Int 0) || ile (height g) j then
    Ok (Num dead)
  else
    grid_at g i j.

(** [#neighbours(i, j)]: the eight lookups, summed left to right. *)
Definition neighbours (g : GameOfLife) (i j : integral) : res integral :=
  let left := of_integral (isub i (Int 1)) in
  let mid := of_integral i in
  let right := of_integral (iadd i (Int 1)) in
  let top := of_integral (isub j (Int 1)) in
  let center := of_integral j in
  let bottom := of_integral (iadd j (Int 1)) in
  match cell g left top with Throw e => Throw e | Ok c1 =>
  match cell g mid top with Throw e => Throw e | Ok c2 =>
  match cell g right top with Throw e => Throw e | Ok c3 =>
  match cell g left center with Throw e => Throw e | Ok c4 =>
  match cell g right center with Throw e => Throw e | Ok c5 =>
  match cell g left bottom with Throw e => Throw e | Ok c6 =>
  match cell g mid bottom with Throw e => Throw e | Ok c7 =>
  match cell g right bottom with Throw e => Throw e | Ok c8 =>
    Ok (iadd (iadd (iadd (iadd (iadd (iadd (iadd
          (to_number c1) (to_number c2)) (to_number c3)) (to_number c4))
          (to_number c5)) (to_number c6)) (to_number c7)) (to_number c8))
  end end end end end end end end.

(** [a === b] between a number and an integer literal. *)
Definition strict_eq (a : integral) (b : Z) : bool :=
  match a with Int z => z =? b | _ => false end.

(** The callback that [update] hands to [#createGrid]; its state is the
    local variable [result]. *)
Definition update_filler (this : GameOfLife) : filler Z :=
  fun i j _ =>
    n <- lift (neighbours this (Int i) (Int j)) ;;
    c <- lift (grid_at this (Int i) (Int j)) ;;
    match c with
    | Num 1 =>
        if strict_eq n 2 || strict_eq n 3 then
          result <- get ;; _ <- put (result + 1) ;; ret true
        else ret false
    | Num 0 =>
        if strict_eq n 3 then
          result <- get ;; _ <- put (result + 1) ;; ret true
        else ret false
    | _ => ret false
    end.

(** [update()]: the engine after the step and the returned count. *)
Definition update (g : GameOfLife) : res (GameOfLife * Z) :=
  createGrid g (Some (update_filler g)) 0.

(** *** Construction *)

(** The first argument: an [HTMLCanvasElement] with its [width] and
    [height] attributes, or anything else. *)
Inductive canvas_arg :=
| HTMLCanvasElement (canvas_width canvas_height : N)
| NotCanvas (v : value).

(** The second argument: a function, or a value that is not one. *)
Inductive filler_arg (S : Type) :=
| Function (f : filler S)
| NotFunction (v : value).
Arguments Function {S} f.
Arguments NotFunction {S} v.

(** The third argument; a property that is absent is [VUndefined]. *)
Record settings := {
  size : value;
  color : value;
  torus_setting : value;
  framesPerSecond_setting : value
}.

Definition no_settings : settings :=
  {| size := VUndefined; color := VUndefined;
     torus_setting := VUndefined; framesPerSecond_setting := VUndefined |}.

(** A destructuring default. *)
Definition with_default (v d : value) : value :=
  match v with VUndefined => d | _ => v end.

Definition constructor {S} (canvas : canvas_arg) (fill : filler_arg S)
    (opts : option settings) : M S GameOfLife :=
  let opts := match opts with Some o => o | None => no_settings end in
  let size := with_default (size opts) (VNumber (Fin 10)) in
  let color := with_default (color opts) (VString "#FF0000") in
  let torus := with_default (torus_setting opts) (VBoolean false) in
  let framesPerSecond :=
    with_default (framesPerSecond_setting opts) (VNumber (Fin 5)) in
  match canvas with
  | NotCanvas _ => lift (Throw (TypeError "Invalid canvas!"))
  | HTMLCanvasElement canvas_width canvas_height =>
  let bad_filler :=
    match fill with
    | NotFunction v => truthy v
    | Function _ => false
    end in
  if bad_filler then lift (Throw (TypeError "Invalid filler!")) else
  match size with
  | VNumber size =>
  match color with
  | VString color =>
      if isNaN size || negb (isFinite size) || negative size then
        lift (Throw (RangeError "Size should be in (0, oo)!"))
      else
        let this :=
          {| cellSize := size; cellColor := color;
             width :=
               Math_ceil (num_div (Fin (inject_Z (Z.of_N canvas_width))) size);
             height :=
               Math_ceil (num_div (Fin (inject_Z (Z.of_N canvas_height))) size);
             torus := torus;
             grid := [];
             framesPerSecond := framesPerSecond;
             handler := None |} in
        createGrid this
          match fill with Function f => Some f | NotFunction _ => None end
  | _ => lift (Throw (TypeError "Invalid color!"))
  end
  | _ => lift (Throw (TypeError "Invalid size!"))
  end
  end.

(** ** Text *)

(** Strings are lists of characters. The white space of [\s] and [trim]
    is taken in its ASCII part: tab, line feed, vertical tab, form feed,
    carriage return and space. *)
Definition text := list ascii.

Definition is_space (c : ascii) : bool :=
  let n := nat_of_ascii c in
  ((9 <=? n) && (n <=? 13))%nat || (n =? 32)%nat.

Definition is_digit (c : ascii) : bool :=
  let n := nat_of_ascii c in ((48 <=? n) && (n <=? 57))%nat.

(** [.] matches anything except a line terminator. *)
Definition is_dot (c : ascii) : bool :=
  let n := nat_of_ascii c in negb ((n =? 10)%nat || (n =? 13)%nat).

Definition line_feed : ascii := ascii_of_nat 10.

(** [s.split('\n')] *)
Fixpoint split_lines_from (cur : text) (s : text) : list text :=
  match s with
  | [] => [reverse cur]
  | c :: s' =>
      if Ascii.eqb c line_feed then reverse cur :: split_lines_from [] s'
      else split_lines_from (c :: cur) s'
  end.

Definition split_lines (s : text) : list text := split_lines_from [] s.

Fixpoint trim_start (s : text) : text :=
  match s with
  | c :: s' => if is_space c then trim_start s' else s
  | [] => []
  end.

(** [s.trim()] *)
Definition trim (s : text) : text :=
  reverse (trim_start (reverse (trim_start s))).

(** [s.startsWith(c)] for a one-character [c] *)
Definition startsWith (s : text) (c : ascii) : bool :=
  match s with
  | c' :: _ => Ascii.eqb c' c
  | [] => false
  end.

(** [Number(s)] for a string of decimal digits; the value is kept exact
    (a double rounds it from 2^53 on). *)
Definition Number_of_digits (s : text) : Z :=
  foldl (fun acc c => acc * 10 + (Z.of_nat (nat_of_ascii c) - 48)) 0 s.

(** *** Regular expressions

    The fragment used by the header pattern, matched by backtracking
    with greedy quantifiers, as [RegExp.prototype.exec] does. *)

Inductive regex :=
| Chr (c : ascii)
| Star (class : ascii -> bool)
| Plus (class : ascii -> bool)
| Seq (r1 r2 : regex)
| Opt (r : regex)
| Group (name : string) (r : regex).

Definition captures := list (string * text).

Section Matcher.
Context {R : Type}.

Fixpoint match_star (class : ascii -> bool) (s : text)
    (k : text -> option R) : option R :=
  match s with
  | c :: s' =>
      if class c then
        match match_star class s' k with
        | Some r => Some r
        | None => k s
        end
      else k s
  | [] => k []
  end.

Fixpoint match_regex (r : regex) (s : text) (caps : captures)
    (k : text -> captures -> option R) : option R :=
  match r with
  | Chr c =>
      match s with
      | c' :: s' => if Ascii.eqb c' c then k s' caps else None
      | [] => None
      end
  | Star class => match_star class s (fun s' => k s' caps)
  | Plus class =>
      match s with
      | c :: s' =>
          if class c then match_star class s' (fun s'' => k s'' caps)
          else None
      | [] => None
      end
  | Seq r1 r2 =>
      match_regex r1 s caps (fun s' caps' => match_regex r2 s' caps' k)
  | Opt r' =>
      match match_regex r' s caps k with
      | Some x => Some x
      | None => k s caps
      end
  | Group name r' =>
      match_regex r' s caps (fun s' caps' =>
        k s' ((name, take (length s - length s') s) :: caps'))
  end.
End Matcher.

(** [r.exec(s)]: the captures of the leftmost match. *)
Fixpoint exec (r : regex) (s : text) : option captures :=
  match match_regex r s [] (fun _ caps => Some caps) with
  | Some caps => Some caps
  | None =>
      match s with
      | _ :: s' => exec r s'
      | [] => None
      end
  end.

Definition group (caps : captures) (name : string) : option text :=
  snd <$> find (fun p => String.eqb (fst p) name) caps.

Fixpoint seq_regex (rs : list regex) (last : regex) : regex :=
  match rs with
  | [] => last
  | r :: rs' => Seq r (seq_regex rs' last)
  end.

Definition literal (s : string) (last : regex) : regex :=
  seq_regex (Chr <$> list_ascii_of_string s) last.

(** [/\s*x\s*=\s*(?<width>\d+),\s*y\s*=\s*(?<height>\d+)(,\s*rule\s*=\s*(?<rule>.+))?/] *)
Definition header_pattern : regex :=
  seq_regex
    [ Star is_space; Chr "x"; Star is_space; Chr "="; Star is_space;
      Group "width" (Plus is_digit); Chr ","; Star is_space;
      Chr "y"; Star is_space; Chr "="; Star is_space;
      Group "height" (Plus is_digit) ]
    (Opt (seq_regex
            [ Chr ","; Star is_space ]
            (literal "rule"
               (seq_regex [ Star is_space; Chr "="; Star is_space ]
                  (Group "rule" (Plus is_dot)))))).

(** The declared [(width, height)] of a header line, if it is one. *)
Definition header_dimensions (line : text) : option (Z * Z) :=
  match exec header_pattern line with
  | Some caps =>
      match group caps "width", group caps "height" with
      | Some w, Some h => Some (Number_of_digits w, Number_of_digits h)
      | _, _ => None
      end
  | None => None
  end.

(** ** The RLE decoder *)

(** A row of the pattern grid. Writing past its end lengthens a
    JavaScript array and leaves holes, which read as [Undefined]. *)
Abbreviation row := (list cellvalue).

(** [a[k] = v] *)
Definition array_set (a : row) (k : Z) (v : cellvalue) : row :=
  if k <? 0 then a
  else
    let n := Z.to_nat k in
    if (n <? length a)%nat then <[n := v]> a
    else a ++ replicate (n - length a) Undefined ++ [v].

(** [grid[y][x] = v] *)
Definition grid_set (grid : list row) (y x : Z) (v : cellvalue)
    : res (list row) :=
  match array_get grid (Int y) with
  | None => Throw (TypeError "Cannot set properties of undefined")
  | Some r => Ok (<[Z.to_nat y := array_set r x v]> grid)
  end.

(** The local variables of [loadRle] once the header has been read. The
    run count is kept exact (no rounding of very long digit strings). *)
Record rle_state := {
  rle_grid : list row;
  runCount : Z;
  x : Z;
  y : Z
}.

(** How the body of a loop iteration ends: go on, or [return]. *)
Inductive flow (A R : Type) :=
| Next (a : A)
| Return (r : R).
Arguments Next {A R} a.
Arguments Return {A R} r.

(** [for (let i = 0; i < n; ++i) grid[y][x + i] = alive] *)
Fixpoint mark_run (n : nat) (grid : list row) (y x : Z) (i : Z)
    : res (list row) :=
  match n with
  | O => Ok grid
  | S n' =>
      match grid_set grid y (x + i) (Num alive) with
      | Ok grid' => mark_run n' grid' y x (i + 1)
      | Throw e => Throw e
      end
  end.

(** The cursor advance shared by [o] and [b]. *)
Definition advance (st : rle_state) (grid : list row) : rle_state :=
  {| rle_grid := grid;
     runCount := 0;
     x := x st + (if 0 <? runCount st then runCount st else 1);
     y := y st |}.

(** One turn of [switch (char)]. *)
Definition rle_char (c : ascii) (st : rle_state)
    : res (flow rle_state (list row)) :=
  if Ascii.eqb c " " || Ascii.eqb c (ascii_of_nat 13)
     || Ascii.eqb c (ascii_of_nat 9) then
    Ok (Next st)
  else if is_digit c then
    Ok (Next {| rle_grid := rle_grid st;
                runCount := runCount st * 10 + (Z.of_nat (nat_of_ascii c) - 48);
                x := x st;
                y := y st |})
  else if Ascii.eqb c "o" then
    match (if runCount st =? 0
           then grid_set (rle_grid st) (y st) (x st) (Num alive)
           else mark_run (Z.to_nat (runCount st)) (rle_grid st) (y st) (x st) 0)
    with
    | Ok grid => Ok (Next (advance st grid))
    | Throw e => Throw e
    end
  else if Ascii.eqb c "b" then
    Ok (Next (advance st (rle_grid st)))
  else if Ascii.eqb c "$" then
    Ok (Next {| rle_grid := rle_grid st;
                runCount := runCount st;
                x := 0;
                y := y st + 1 |})
  else if Ascii.eqb c "!" then
    Ok (Return (rle_grid st))
  else
    Throw (SyntaxError "Invalid tag!").

(** [for (const char of line) switch (char) ...] *)
Fixpoint rle_chars (line : text) (st : rle_state)
    : res (flow rle_state (list row)) :=
  match line with
  | [] => Ok (Next st)
  | c :: line' =>
      match rle_char c st with
      | Ok (Next st') => rle_chars line' st'
      | other => other
      end
  end.

(** The rows allocated when the header is read. *)
Fixpoint header_grid (height : nat) (width : Z) (grid : list row)
    : res (list row) :=
  match height with
  | O => Ok grid
  | S height' =>
      match new_Array (Int width) with
      | Ok n => header_grid height' width (grid ++ [replicate n (Num dead)])
      | Throw e => Throw e
      end
  end.

(** The loop over the lines; [st] is [None] while [grid] is undefined.
    Falling off the end of the loop returns [undefined], here [None]. *)
Fixpoint load_lines (lines : list text) (st : option rle_state)
    : res (option (list row)) :=
  match lines with
  | [] => Ok None
  | line :: rest =>
      let line := trim line in
      if bool_decide (line = []) then load_lines rest st
      else if startsWith line "#" then load_lines rest st
      else
        match st with
        | None =>
            match header_dimensions line with
            | None => Throw (SyntaxError "Invalid header!")
            | Some (width, height) =>
                match header_grid (Z.to_nat height) width [] with
                | Ok grid =>
                    load_lines rest
                      (Some {| rle_grid := grid;
                               runCount := 0; x := 0; y := 0 |})
                | Throw e => Throw e
                end
            end
        | Some s =>
            match rle_chars line s with
            | Ok (Next s') => load_lines rest (Some s')
            | Ok (Return grid) => Ok (Some grid)
            | Throw e => Throw e
            end
        end
  end.

Definition loadRle (runLengthEncoded : string) : res (option (list row)) :=
  load_lines (split_lines (list_ascii_of_string runLengthEncoded)) None.

(** *** The filler made from a pattern *)

(** What the closure returned by [rleFiller] captures. *)
Record pattern := {
  pattern_grid : list row;
  pattern_height : Z;
  pattern_width : Z
}.

(** The closure's mutable variables [tranX] and [tranY]; [None] is
    [undefined]. *)
Definition translation : Type := option integral * option integral.

(** [! t] *)
Definition unset (t : option integral) : bool :=
  match t with
  | None => true
  | Some INaN => true
  | Some (Int z) => z =? 0
  | Some _ => false
  end.

(** [rleFiller(runLengthEncoded)] up to the [return]; reading [length]
    of [undefined] throws. *)
Definition rleFiller_pattern (runLengthEncoded : string) : res pattern :=
  match loadRle runLengthEncoded with
  | Throw e => Throw e
  | Ok None => Throw (TypeError "Cannot read properties of undefined")
  | Ok (Some grid) =>
      Ok {| pattern_grid := grid;
            pattern_height := Z.of_nat (length grid);
            pattern_width :=
              match grid with
              | first :: _ => Z.of_nat (length first)
              | [] => 0
              end |}
  end.

(** [if (! t) t = fresh]: the value of [t] afterwards. *)
Definition set_if_unset (t : option integral) (fresh : integral) : integral :=
  match t with
  | Some v => if unset t then fresh else v
  | None => fresh
  end.

(** The function returned by [rleFiller]. *)
Definition rle_predicate (p : pattern) : filler translation :=
  fun x y game =>
    t <- get ;;
    let tranX :=
      set_if_unset (fst t)
        (floor_half (isub (width game) (Int (pattern_width p)))) in
    let tranY :=
      set_if_unset (snd t)
        (floor_half (isub (height game) (Int (pattern_height p)))) in
    _ <- put (Some tranX, Some tranY) ;;
    let x := isub (Int x) tranX in
    let y := isub (Int y) tranY in
    ret (ile (Int 0) x && ilt x (Int (pattern_width p))
         && ile (Int 0) y && ilt y (Int (pattern_height p))
         && match array_get (pattern_grid p) y with
            | Some r =>
                match array_get r x with
                | Some (Num z) => z =? alive
                | _ => false
                end
            | None => false
            end).

(** ** The run loop

    The engine lives in a browser that holds the pending timeouts and the
    pending animation-frame callbacks. Every timeout set by [start] runs
    the same callback, so a pending timeout is its id. *)

Inductive frame_callback :=
| DrawFrame      (* [() => this.draw()], queued by the constructor *)
| StepFrame.     (* the callback queued when a timeout of [start] fires *)

#[global] Instance frame_callback_eq_dec : EqDecision frame_callback.
Proof. solve_decision. Defined.

Record browser := {
  game : GameOfLife;
  timers : list nat;
  frames : list frame_callback;
  next_timer : nat
}.

(** [start()]; [setTimeout] returns a fresh id. *)
Definition start (w : browser) : browser :=
  match handler (game w) with
  | Some _ => w
  | None =>
      {| game := set_handler (game w) (Some (next_timer w));
         timers := timers w ++ [next_timer w];
         frames := frames w;
         next_timer := Datatypes.S (next_timer w) |}
  end.

(** [clearTimeout(id)] *)
Definition clearTimeout (id : nat) (ts : list nat) : list nat :=
  filter (fun t => t ≠ id) ts.

(** [stop()]; a timer id is truthy unless it is 0. *)
Definition stop (w : browser) : browser :=
  {| game := set_handler (game w) None;
     timers :=
       match handler (game w) with
       | Some id => if (id =? 0)%nat then timers w else clearTimeout id (timers w)
       | None => timers w
       end;
     frames := frames w;
     next_timer := next_timer w |}.

(** A pending timeout fires: its callback requests an animation frame. *)
Definition timer_fires (id : nat) (w : browser) : browser :=
  if bool_decide (id ∈ timers w) then
    {| game := game w;
       timers := clearTimeout id (timers w);
       frames := frames w ++ [StepFrame];
       next_timer := next_timer w |}
  else w.

(** The oldest pending animation-frame callback runs. Drawing does not
    change the engine. When [update] throws, the callback ends there. *)
Definition frame_fires (w : browser) : browser :=
  match frames w with
  | [] => w
  | DrawFrame :: rest =>
      {| game := game w; timers := timers w; frames := rest;
         next_timer := next_timer w |}
  | StepFrame :: rest =>
      match update (game w) with
      | Throw _ =>
          {| game := game w; timers := timers w; frames := rest;
             next_timer := next_timer w |}
      | Ok (g, count) =>
          let w' := {| game := set_handler g None; timers := timers w;
                       frames := rest; next_timer := next_timer w |} in
          if 0 <? count then start w' else w'
      end
  end.

Inductive event :=
| CallStart
| CallStop
| TimerFires (id : nat)
| FrameFires.

Definition step (w : browser) (e : event) : browser :=
  match e with
  | CallStart => start w
  | CallStop => stop w
  | TimerFires id => timer_fires id w
  | FrameFires => frame_fires w
  end.

Definition run (w : browser) (events : list event) : browser :=
  foldl step w events.

(** The browser right after a successful construction. *)
Definition boot (g : GameOfLife) : browser :=
  {| game := g; timers := []; frames := [DrawFrame]; next_timer := 1 |}.

(** The steps that are scheduled: pending timeouts and pending step
    frames. *)
Definition pending_steps (w : browser) : nat :=
  length (timers w) + length (filter (fun f => f = StepFrame) (frames w)).

(** ** Shapes, and the step as the specification words it *)

(** A grid entry is one of the two states. *)
Definition cell_state (c : Z) : Prop := c = dead \/ c = alive.

(** The number [n] is the array length [k]. *)
Definition array_length (n : integral) (k : nat) : Prop :=
  n = Int (Z.of_nat k) /\ Z.of_nat k <= max_array_length.

(** The grid of an engine as [#createGrid] leaves it: [width] rows of the
    array, each holding [height] states. *)
Definition row_shape (g : GameOfLife) (r : list Z) : Prop :=
  exists h : nat,
    array_length (height g) h /\ length r = h /\ Forall cell_state r.

Definition grid_shape (g : GameOfLife) : Prop :=
  exists w : nat,
    array_length (width g) w /\ length (grid g) = w /\
    Forall (row_shape g) (grid g).

(** The step as the specification words it, to compare [update] with. *)
Module Spec.

Definition dimension (n : integral) : Z :=
  match n with Int z => z | _ => 0 end.

(** The state stored at column [i], row [j]. *)
Definition stored (g : GameOfLife) (i j : Z) : Z :=
  default dead (grid g !! Z.to_nat i ≫= fun r => r !! Z.to_nat j).

(** The state of a coordinate under the topology of the engine:
    wrapped by floor modulo on a torus, [dead] outside a bounded grid. *)
Definition state (g : GameOfLife) (i j : Z) : Z :=
  let W := dimension (width g) in
  let H := dimension (height g) in
  if truthy (torus g) then stored g (i mod W) (j mod H)
  else if (0 <=? i) && (i <? W) && (0 <=? j) && (j <? H) then stored g i j
  else dead.

(** The sum of the states of the eight Moore neighbours. *)
Definition live_neighbours (g : GameOfLife) (i j : Z) : Z :=
  state g (i - 1) (j - 1) + state g i (j - 1) + state g (i + 1) (j - 1)
  + state g (i - 1) j + state g (i + 1) j
  + state g (i - 1) (j + 1) + state g i (j + 1) + state g (i + 1) (j + 1).

(** Survival with 2 or 3 neighbours, birth with 3, death otherwise. *)
Definition rule (c n : Z) : Z :=
  if c =? alive then (if (n =? 2) || (n =? 3) then alive else dead)
  else (if n =? 3 then alive else dead).

Definition next_generation (g : GameOfLife) : list (list Z) :=
  (fun i =>
     (fun j => rule (stored g i j) (live_neighbours g i j))
       <$> seqZ 0 (dimension (height g)))
    <$> seqZ 0 (dimension (width g)).

Definition total {A} (measure : A -> Z) (l : list A) : Z :=
  foldr (fun a t => measure a + t) 0 l.

Definition live (c : Z) : Z := if c =? alive then 1 else 0.

Definition live_cells (cells : list (list Z)) : Z := total (total live) cells.

End Spec.

(** Where the eight lookups of a step are sound: everywhere on a bounded
    grid, and on a torus away from the negative multiples of a dimension. *)
Definition sound_lookup (g : GameOfLife) (W H a b : Z) : Prop :=
  truthy (torus g) = false \/
  (0 < W /\ 0 < H /\ (0 <= a \/ a mod W <> 0) /\ (0 <= b \/ b mod H <> 0)).

(** The lookups of a step stay sound on a torus of at least 2 by 2. *)
Definition steppable (g : GameOfLife) : Prop :=
  truthy (torus g) = true ->
  Spec.dimension (width g) = 0 \/ Spec.dimension (height g) = 0 \/
  (2 <= Spec.dimension (width g) /\ 2 <= Spec.dimension (height g)).



Definition chosen (opts : option settings) : settings :=
  match opts with Some o => o | None => no_settings end.






(** The lines that [loadRle] does not skip, trimmed. *)
Fixpoint significant_lines (lines : list text) : list text :=
  match lines with
  | [] => []
  | line :: rest =>
      let line := trim line in
      if bool_decide (line = []) then significant_lines rest
      else if startsWith line "#" then significant_lines rest
      else line :: significant_lines rest
  end.

(** What [loadRle] returns when the loop over the body ends in [r]. *)
Definition returned (r : res (flow rle_state (list row)))
    : res (option (list row)) :=
  match r with
  | Ok (Next _) => Ok None
  | Ok (Return grid) => Ok (Some grid)
  | Throw e => Throw e
  end.

(** The state in which the body starts. *)
Definition body_start (grid : list row) : rle_state :=
  {| rle_grid := grid; runCount := 0; x := 0; y := 0 |}.












Definition nl : string := String line_feed EmptyString.



(** ** Engines used as examples *)

Definition engine (w h : Z) (toroidal : bool) (cells : list (list Z))
    : GameOfLife :=
  {| cellSize := Fin 10; cellColor := "#FF0000";
     width := Int w; height := Int h; torus := VBoolean toroidal;
     grid := cells;
     framesPerSecond := VNumber (Fin 5); handler := None |}.

(** A 3 by 3 torus with one live cell in the middle. *)
Definition torus_3x3 : GameOfLife :=
  engine 3 3 true [[0; 0; 0]; [0; 1; 0]; [0; 0; 0]].

(** A torus one column wide, and a torus one row high. *)
Definition torus_1x3 : GameOfLife := engine 1 3 true [[0; 1; 0]].
Definition torus_3x1 : GameOfLife := engine 3 1 true [[1]; [0]; [0]].

(** A bounded 4 by 4 grid holding the 2 by 2 block, a still life. *)
Definition block_4x4 : GameOfLife :=
  engine 4 4 false [[0; 0; 0; 0]; [0; 1; 1; 0]; [0; 1; 1; 0]; [0; 0; 0; 0]].

(** The one-cell pattern [x = 1, y = 1 / o!]. *)
Definition dot : pattern :=
  {| pattern_grid := [[Num alive]]; pattern_height := 1; pattern_width := 1 |}.

(** No step is scheduled unless [#handler] is set, and at most one is. *)
Definition single_flight (w : browser) : Prop :=
  (pending_steps w <= 1)%nat /\
  (handler (game w) = None -> pending_steps w = O).

Definition is_stop (e : event) : bool :=
  match e with CallStop => true | _ => false end.

(** ** Further definitions: seeding, headers, the run loop, random filling, drawing *)

(** ** Fillers used to observe [#createGrid] *)

(** A filler that answers from the coordinates alone and records each
    call in its state. *)
Definition logging_filler (answer : Z -> Z -> bool) : filler (list (Z * Z)) :=
  fun i j _ log => Ok (answer i j, log ++ [(i, j)]).

(** The states written for the answers of a filler. *)
Definition seeded (answer : Z -> Z -> bool) (w h : nat) : list (list Z) :=
  (fun i => (fun j => if answer i j then alive else dead)
              <$> seqZ 0 (Z.of_nat h))
    <$> seqZ 0 (Z.of_nat w).

(** The coordinates of a [w] by [h] grid in the order of the two loops
    of [#createGrid]. *)
Definition cells_in_order (w h : nat) : list (Z * Z) :=
  i ← seqZ 0 (Z.of_nat w); (fun j => (i, j)) <$> seqZ 0 (Z.of_nat h).

(** Column [a] of row [b] of a pattern is inside it and alive. *)
Definition pattern_alive (p : pattern) (a b : Z) : bool :=
  (0 <=? a) && (a <? pattern_width p) && (0 <=? b) && (b <? pattern_height p)
  && match pattern_grid p !! Z.to_nat b with
     | Some r =>
         match r !! Z.to_nat a with
         | Some (Num z) => z =? alive
         | _ => false
         end
     | None => false
     end.

(** The characters that [switch (char)] has a case for. *)
Definition is_tag (c : ascii) : bool :=
  Ascii.eqb c " " || Ascii.eqb c (ascii_of_nat 13) || Ascii.eqb c (ascii_of_nat 9)
  || is_digit c || Ascii.eqb c "o" || Ascii.eqb c "b" || Ascii.eqb c "$"
  || Ascii.eqb c "!".

(** A non-empty string of decimal digits. *)
Definition digits (s : text) : Prop :=
  s <> [] /\ Forall (fun c => is_digit c = true) s.

(** The header line [x = <w>, y = <h>]. *)
Definition plain_header (w h : text) : text :=
  list_ascii_of_string "x = " ++ w ++ list_ascii_of_string ", y = " ++ h.

(** Every pending timeout is the one that [#handler] holds, and timer ids
    are positive. *)
Definition handler_tracks_timers (w : browser) : Prop :=
  (0 < next_timer w)%nat /\
  (timers w = [] \/
   exists id, timers w = [id] /\ handler (game w) = Some id /\
              (0 < id < next_timer w)%nat).

(** *** The random filler *)

(** [a < b]; any comparison with NaN is false. *)
Definition num_lt (a b : number) : bool :=
  match a, b with
  | NaN, _ | _, NaN => false
  | _, NInf => false
  | NInf, _ => true
  | PInf, _ => false
  | Fin _, PInf => true
  | Fin p, Fin q => negb (Qle_bool q p)
  end.

(** [Math.random]: the numbers it is going to return, and how many of
    them have been taken. *)
Record random_source := {
  draws : nat -> Q;
  drawn : nat
}.

Definition Math_random : M random_source number :=
  fun src => Ok (Fin (draws src (drawn src)),
                 {| draws := draws src; drawn := Datatypes.S (drawn src) |}).

(** The closure that [randomFiller] returns:
    [() => Math.random() < percentage]. *)
Definition random_predicate (percentage : number) : filler random_source :=
  fun _ _ _ => r <- Math_random ;; ret (num_lt r percentage).

(** [randomFiller(percentage)], on the number that [Number(percentage)]
    gives. *)
Definition randomFiller (percentage : number) : res (filler random_source) :=
  if isNaN percentage || num_lt percentage (Fin 0) || num_lt (Fin 1) percentage
  then Throw (RangeError "Percentage should be in [0, 1]!")
  else Ok (random_predicate percentage).

(** [Math.random] returns numbers of [0, 1). *)
Definition unit_draws (src : random_source) : Prop :=
  forall k, (0 <= draws src k)%Q /\ (draws src k < 1)%Q.

(** The source after [k] more draws. *)
Definition after_draws (k : Z) (src : random_source) : random_source :=
  {| draws := draws src; drawn := drawn src + Z.to_nat k |}.

(** The draw that decides cell [(i, j)] of a grid of height [h]. *)
Definition draw_of_cell (src : random_source) (h : nat) (i j : Z) : Q :=
  draws src (drawn src + Z.to_nat (i * Z.of_nat h + j)).

(** A source that alternates between a quarter and three quarters. *)
Definition alternating : random_source :=
  {| draws := fun k => if Nat.even k then (1 # 4)%Q else (3 # 4)%Q;
     drawn := 0 |}.

(** *** Drawing *)

(** [a * b] *)
Definition num_mul (a b : number) : number :=
  match a, b with
  | NaN, _ | _, NaN => NaN
  | Fin p, Fin q => Fin (p * q)
  | Fin p, PInf | PInf, Fin p =>
      if Qeq_bool p 0 then NaN else if Qle_bool 0 p then PInf else NInf
  | Fin p, NInf | NInf, Fin p =>
      if Qeq_bool p 0 then NaN else if Qle_bool 0 p then NInf else PInf
  | PInf, PInf | NInf, NInf => PInf
  | PInf, NInf | NInf, PInf => NInf
  end.

(** What [draw] does to the 2D context of the canvas, in order. *)
Inductive canvas_call :=
| set_fillStyle (style : string)
| fillRect (left top across down : number)
| clearRect (left top across down : number).

(** The turns of [for (let k = 0; k < bound; k += 1)]; [None] for the
    bound +oo, which no constructed engine has. *)
Definition turns (bound : integral) : option nat :=
  match bound with
  | Int z => Some (Z.to_nat z)
  | IPInf => None
  | INaN | INInf => Some O
  end.

(** The body of the loops of [draw] for the value read at [(i, j)]. *)
Definition paint (g : GameOfLife) (i j : Z) (c : cellvalue) : canvas_call :=
  let left := num_mul (Int i) (cellSize g) in
  let top := num_mul (Int j) (cellSize g) in
  match c with
  | Num 1 => fillRect left top (cellSize g) (cellSize g)
  | _ => clearRect left top (cellSize g) (cellSize g)
  end.

(** [draw()]: the calls made on the context, or the exception of
    [this.#grid[i][j]]. With no column the rows are not looked at. *)
Definition draw (g : GameOfLife) : option (res (list canvas_call)) :=
  match turns (width g), turns (height g) with
  | Some O, _ => Some (Ok [set_fillStyle (cellColor g)])
  | Some w, Some h =>
      Some (match for_range w 0 (fun i calls =>
                    for_range h 0 (fun j calls =>
                      c <- lift (grid_at g (Int i) (Int j)) ;;
                      ret (calls ++ [paint g i j c])) calls)
                  [set_fillStyle (cellColor g)] tt with
            | Ok (calls, _) => Ok calls
            | Throw e => Throw e
            end)
  | _, _ => None
  end.

(** The number of rectangles that a list of calls fills. *)
Definition filled (calls : list canvas_call) : Z :=
  Spec.total (fun c => match c with fillRect _ _ _ _ => 1 | _ => 0 end) calls.

(** * Properties *)

(** *** Rounding, the monad and loops *)

Lemma Math_round_integral (z : Z) : Math_round (Int z) = Int z.
Proof.
  cbn. f_equal. unfold Qfloor, Qplus, inject_Z. cbn.
  rewrite Z.mul_1_r. 
  symmetry. apply (Z.div_unique _ _ _ 1); lia.
Qed.

Lemma bind_ok {S A B} (m : M S A) (k : A -> M S B) s b s' :
  bind m k s = Ok (b, s') ->
  exists a s1, m s = Ok (a, s1) /\ k a s1 = Ok (b, s').
Proof.
  unfold bind. destruct (m s) as [[a s1]|e]; [eauto | discriminate].
Qed.

Lemma lift_ok {S A} (r : res A) (s : S) a s' :
  lift r s = Ok (a, s') -> r = Ok a /\ s' = s.
Proof. unfold lift. destruct r; intros H; inversion H; auto. Qed.

Lemma for_range_inv {S A} (P : nat -> A -> Prop) (body : Z -> A -> M S A) :
  (forall k i a s a' s', P k a -> body i a s = Ok (a', s') -> P (Datatypes.S k) a') ->
  forall n k start acc s r s',
    P k acc -> for_range n start body acc s = Ok (r, s') -> P (k + n)%nat r.
Proof.
  intros Hstep. induction n as [|n IH]; intros k start acc s r s' HP Hrun.
  - cbn in Hrun. inversion Hrun; subst. by rewrite Nat.add_0_r.
  - cbn in Hrun. apply bind_ok in Hrun as (a & s1 & Hb & Hrest).
    replace (k + Datatypes.S n)%nat with (Datatypes.S k + n)%nat by lia.
    eapply IH; [|exact Hrest]. eapply Hstep; eauto.
Qed.

(** *** Grids built by [#createGrid] *)

Lemma new_Array_ok n k : new_Array n = Ok k -> array_length n k.
Proof.
  unfold array_length.
  destruct n as [| | |z]; cbn; try discriminate.
  destruct (0 <=? z) eqn:H0; destruct (z <=? max_array_length) eqn:H1;
    cbn; try discriminate.
  intros [= <-]. rewrite Z2Nat.id by lia. split; [done | lia].
Qed.

Lemma new_Array_Int (k : nat) :
  Z.of_nat k <= max_array_length -> new_Array (Int (Z.of_nat k)) = Ok k.
Proof.
  intros H. cbn. 
  destruct (0 <=? Z.of_nat k) eqn:H0; [|lia].
  destruct (Z.of_nat k <=? max_array_length) eqn:H1; [|lia].
  cbn. by rewrite Nat2Z.id.
Qed.

Lemma createGrid_ok {S} (g : GameOfLife) (f : option (filler S)) s g' s' :
  createGrid g f s = Ok (g', s') ->
  grid_shape g' /\ exists cells, g' = set_grid g cells.
Proof.
  unfold createGrid. intros H.
  apply bind_ok in H as (w & s1 & Hw & H). apply lift_ok in Hw as [Hw ->].
  apply bind_ok in H as (cells & s2 & Hcells & H).
  inversion H; subst; clear H.
  apply new_Array_ok in Hw.
  split; [|eauto].
  exists w. cbn. split; [done|].
  change (length cells = w /\ Forall (row_shape g) cells).
  apply (for_range_inv
           (fun k cells => length cells = k /\ Forall (row_shape g) cells))
    with (k := O) in Hcells; [done| |done].
  clear. intros k i cells s cells' s' [Hlen Hall] Hbody.
  apply bind_ok in Hbody as (h & s1 & Hh & Hbody). apply lift_ok in Hh as [Hh ->].
  apply bind_ok in Hbody as (r & s2 & Hr & Hbody).
  inversion Hbody; subst; clear Hbody.
  apply new_Array_ok in Hh.
  split; [rewrite length_app; cbn; lia|].
  apply Forall_app. split; [done|]. apply Forall_singleton.
  exists h. split; [done|].
  destruct f as [fn|].
  - apply (for_range_inv (fun k r => length r = k /\ Forall cell_state r))
      with (k := O) in Hr; [done| |done].
    clear. intros k j r s r' s' [Hlen Hall] Hbody.
    apply bind_ok in Hbody as (b & s1 & _ & Hbody).
    inversion Hbody; subst; clear Hbody.
    split; [rewrite length_app; cbn; lia|].
    apply Forall_app. split; [done|]. apply Forall_singleton.
    destruct b; [by right | by left].
  - inversion Hr; subst. split; [apply length_replicate|].
    apply Forall_replicate. by left.
Qed.

(** *** [cell] on a bounded grid *)

Lemma array_get_Int {A} (a : list A) (z : Z) :
  0 <= z -> array_get a (Int z) = a !! Z.to_nat z.
Proof. intros H. cbn. destruct (z <? 0) eqn:E; [lia | done]. Qed.

Lemma grid_at_inside g (zi zj : Z) (w h : nat) :
  grid_shape g -> width g = Int (Z.of_nat w) -> height g = Int (Z.of_nat h) ->
  0 <= zi < Z.of_nat w -> 0 <= zj < Z.of_nat h ->
  exists r z, grid g !! Z.to_nat zi = Some r /\ r !! Z.to_nat zj = Some z /\
    cell_state z /\ grid_at g (Int zi) (Int zj) = Ok (Num z).
Proof.
  intros (w' & [Hw' _] & Hlen & Hrows) Hw Hh Hi Hj.
  rewrite Hw in Hw'. injection Hw' as Hw'. apply Nat2Z.inj in Hw'. subst w'.
  destruct (lookup_lt_is_Some_2 (grid g) (Z.to_nat zi)) as [r Hr]; [lia|].
  pose proof (Forall_lookup_1 _ _ _ _ Hrows Hr) as (h' & [Hh' _] & Hrl & Hcells).
  rewrite Hh in Hh'. injection Hh' as Hh'. apply Nat2Z.inj in Hh'. subst h'.
  destruct (lookup_lt_is_Some_2 r (Z.to_nat zj)) as [z Hz]; [lia|].
  exists r, z. repeat split; try done.
  - exact (Forall_lookup_1 _ _ _ _ Hcells Hz).
  - unfold grid_at. rewrite array_get_Int by lia. rewrite Hr.
    rewrite array_get_Int by lia. by rewrite Hz.
Qed.

Lemma cell_nonfinite g (i j : number) :
  isFinite i = false \/ isFinite j = false -> cell g i j = Ok (Num dead).
Proof.
  intros H. unfold cell.
  destruct i as [| | |qi], j as [| | |qj]; cbn in *; try done; destruct H; done.
Qed.

Lemma cell_bounded_rounded g (i j : number) (zi zj : Z) :
  truthy (torus g) = false ->
  Math_round i = Int zi -> Math_round j = Int zj ->
  cell g i j =
    if ilt (Int zi) (Int 0) || ile (width g) (Int zi)
       || ilt (Int zj) (Int 0) || ile (height g) (Int zj)
    then Ok (Num dead) else grid_at g (Int zi) (Int zj).
Proof. intros Hb Hi Hj. unfold cell. rewrite Hi, Hj, Hb. done. Qed.

Lemma cell_bounded_outside g (i j W H : Z) :
  truthy (torus g) = false ->
  width g = Int W -> height g = Int H ->
  ~ (0 <= i < W /\ 0 <= j < H) ->
  cell g (Int i) (Int j) = Ok (Num dead).
Proof.
  intros Hb HW HH Hout.
  rewrite (cell_bounded_rounded g _ _ i j Hb
             (Math_round_integral i) (Math_round_integral j)).
  rewrite HW, HH. cbn.
  destruct (Z.ltb_spec i 0); [done|]. destruct (Z.leb_spec W i); [done|].
  destruct (Z.ltb_spec j 0); [done|]. destruct (Z.leb_spec H j); [done|].
  lia.
Qed.

(** C3. In bounded mode [cell] never throws on an engine whose grid is
    well shaped: it always returns the state of a cell; it returns [dead]
    for every NaN or infinite coordinate, and for every integer
    coordinate pair outside [0, W) x [0, H). *)
Theorem cell_bounded_total (g : GameOfLife) :
  grid_shape g -> truthy (torus g) = false ->
  (forall i j : number, exists z, cell g i j = Ok (Num z) /\ cell_state z) /\
  (forall i j : number,
      isFinite i = false \/ isFinite j = false -> cell g i j = Ok (Num dead)) /\
  (forall (i j W H : Z),
      width g = Int W -> height g = Int H ->
      ~ (0 <= i < W /\ 0 <= j < H) ->
      cell g (Int i) (Int j) = Ok (Num dead)).
Proof.
  intros Hshape Hbounded.
  pose proof (fun i j zi zj => cell_bounded_rounded g i j zi zj Hbounded)
    as Hround.
  split; [|split].
  - intros i j.
    destruct (isFinite i) eqn:Fi; [|exists dead; split; [apply cell_nonfinite; auto | by left]].
    destruct (isFinite j) eqn:Fj; [|exists dead; split; [apply cell_nonfinite; auto | by left]].
    destruct i as [| | |qi]; try done. destruct j as [| | |qj]; try done.
    set (zi := Qfloor (qi + (1 # 2))). set (zj := Qfloor (qj + (1 # 2))).
    rewrite (Hround (Fin qi) (Fin qj) zi zj eq_refl eq_refl).
    clearbody zi zj.
    destruct (ilt (Int zi) (Int 0) || ile (width g) (Int zi)
              || ilt (Int zj) (Int 0) || ile (height g) (Int zj)) eqn:Hout;
      [exists dead; split; [done | by left]|].
    apply orb_false_elim in Hout as [Hout Hj2].
    apply orb_false_elim in Hout as [Hout Hj1].
    apply orb_false_elim in Hout as [Hi1 Hi2].
    pose proof Hshape as (w & [Hw Hwmax] & Hlen & Hrows).
    rewrite Hw in Hi2. cbn in Hi1, Hi2, Hj1.
    apply Z.ltb_ge in Hi1, Hj1. apply Z.leb_gt in Hi2.
    destruct (lookup_lt_is_Some_2 (grid g) (Z.to_nat zi)) as [r Hr]; [lia|].
    pose proof (Forall_lookup_1 _ _ _ _ Hrows Hr) as (h & [Hh Hhmax] & Hrl & Hcells).
    rewrite Hh in Hj2. cbn in Hj2. apply Z.leb_gt in Hj2.
    destruct (grid_at_inside g zi zj w h) as (r' & z & _ & _ & Hz & ->);
      [done | done | done | lia | lia |].
    by exists z.
  - intros i j. apply cell_nonfinite.
  - intros i j W H. by apply cell_bounded_outside.
Qed.

(** C3 on the bounded 4 by 4 block. *)
Lemma cell_bounded_total_witness :
  (forall i j : number,
      exists z, cell block_4x4 i j = Ok (Num z) /\ cell_state z) /\
  (forall i j : number,
      isFinite i = false \/ isFinite j = false ->
      cell block_4x4 i j = Ok (Num dead)) /\
  (forall (i j W H : Z),
      width block_4x4 = Int W -> height block_4x4 = Int H ->
      ~ (0 <= i < W /\ 0 <= j < H) ->
      cell block_4x4 (Int i) (Int j) = Ok (Num dead)).
Proof.
  apply cell_bounded_total; [|reflexivity].
  exists 4%nat. split; [split; [reflexivity | vm_compute; discriminate]|].
  split; [reflexivity|].
  repeat constructor; exists 4%nat;
    (split; [split; [reflexivity | vm_compute; discriminate]|]);
    (split; [reflexivity|]); repeat constructor; (by left) || (by right).
Defined.

(** *** [cell] on a torus *)

Lemma rem_negative (W i : Z) :
  0 < W -> i < 0 -> Z.rem i W = - ((- i) mod W).
Proof.
  intros HW Hi. rewrite <- (Z.opp_involutive i) at 1.
  rewrite Z.rem_opp_l by lia. f_equal. apply Z.rem_mod_nonneg; lia.
Qed.

Lemma wrap_nonneg (W i : Z) :
  0 < W -> 0 <= i -> wrap (Int W) (Int i) = Int (i mod W).
Proof.
  intros HW Hi. unfold wrap. cbn.
  destruct (Z.ltb_spec i 0); [lia|].
  destruct (Z.eqb_spec W 0); [lia|].
  f_equal. apply Z.rem_mod_nonneg; lia.
Qed.

Lemma wrap_negative (W i : Z) :
  0 < W -> i < 0 -> i mod W <> 0 -> wrap (Int W) (Int i) = Int (i mod W).
Proof.
  intros HW Hi Hm. unfold wrap. cbn.
  destruct (Z.ltb_spec i 0); [|lia].
  destruct (Z.eqb_spec W 0); [lia|]. cbn.
  f_equal. rewrite rem_negative by lia.
  assert (Hk : (- i) mod W <> 0).
  { intros E. apply Hm. rewrite <- (Z.opp_involutive i).
    apply Z.mod_opp_l_z; [lia | done]. }
  rewrite <- (Z.opp_involutive i) at 2.
  rewrite (Z.mod_opp_l_nz (- i) W) by (done || lia). lia.
Qed.

(** For a negative multiple of the dimension the remainder is zero and
    the wrapped index is the dimension itself, one past the last slot. *)
Lemma wrap_negative_multiple (W i : Z) :
  0 < W -> i < 0 -> i mod W = 0 -> wrap (Int W) (Int i) = Int W.
Proof.
  intros HW Hi Hm. unfold wrap. cbn.
  destruct (Z.ltb_spec i 0); [|lia].
  destruct (Z.eqb_spec W 0); [lia|]. cbn.
  f_equal. rewrite rem_negative by lia.
  assert (Hk : (- i) mod W = 0) by (apply Z.mod_opp_l_z; [lia | done]).
  lia.
Qed.

Lemma cell_torus_finite g (i j : Z) :
  truthy (torus g) = true ->
  cell g (Int i) (Int j) =
    grid_at g (wrap (width g) (Int i)) (wrap (height g) (Int j)).
Proof.
  intros Ht. unfold cell. rewrite !Math_round_integral, Ht. done.
Qed.

Lemma cell_torus_wrap g (W H : nat) (i j : Z) :
  grid_shape g -> truthy (torus g) = true ->
  width g = Int (Z.of_nat W) -> height g = Int (Z.of_nat H) ->
  (0 < W)%nat -> (0 < H)%nat ->
  (0 <= i \/ i mod Z.of_nat W <> 0) -> (0 <= j \/ j mod Z.of_nat H <> 0) ->
  exists z,
    cell g (Int i) (Int j) = Ok (Num z) /\
    grid_at g (Int (i mod Z.of_nat W)) (Int (j mod Z.of_nat H)) = Ok (Num z) /\
    cell_state z.
Proof.
  intros Hshape Ht HW HH HWpos HHpos Hi Hj.
  rewrite cell_torus_finite by done. rewrite HW, HH.
  assert (wrap (Int (Z.of_nat W)) (Int i) = Int (i mod Z.of_nat W)) as ->.
  { destruct (Z.lt_ge_cases i 0); [apply wrap_negative | apply wrap_nonneg]; lia. }
  assert (wrap (Int (Z.of_nat H)) (Int j) = Int (j mod Z.of_nat H)) as ->.
  { destruct (Z.lt_ge_cases j 0); [apply wrap_negative | apply wrap_nonneg]; lia. }
  pose proof (Z.mod_pos_bound i (Z.of_nat W) ltac:(lia)).
  pose proof (Z.mod_pos_bound j (Z.of_nat H) ltac:(lia)).
  destruct (grid_at_inside g (i mod Z.of_nat W) (j mod Z.of_nat H) W H)
    as (r & z & _ & _ & Hz & Hat); try done.
  exists z. done.
Qed.

(** *** The step *)

Lemma seqZ_succ (start : Z) (n : nat) :
  seqZ start (Z.of_nat (Datatypes.S n)) = start :: seqZ (start + 1) (Z.of_nat n).
Proof.
  rewrite seqZ_cons by lia. f_equal. f_equal; lia.
Qed.

(** A loop that appends one item per turn and adds its measure to the
    counter builds the list of the items and their total. *)
Lemma for_range_push {A} (measure : A -> Z)
    (body : Z -> list A -> M Z (list A)) (item : Z -> A) (n : nat) :
  forall start acc s,
    (forall k acc s, start <= k < start + Z.of_nat n ->
       body k acc s = Ok (acc ++ [item k], s + measure (item k))) ->
    for_range n start body acc s =
      Ok (acc ++ (item <$> seqZ start (Z.of_nat n)),
          s + Spec.total measure (item <$> seqZ start (Z.of_nat n))).
Proof.
  induction n as [|n IH]; intros start acc s Hbody.
  - cbn. by rewrite app_nil_r, Z.add_0_r.
  - rewrite seqZ_succ. cbn [for_range]. unfold bind at 1.
    rewrite Hbody by lia. rewrite IH by (intros; apply Hbody; lia).
    unfold Spec.total. cbn. rewrite <- app_assoc. cbn.
    f_equal. f_equal. lia.
Qed.

Lemma stored_inside g (i j : Z) (w h : nat) :
  grid_shape g -> width g = Int (Z.of_nat w) -> height g = Int (Z.of_nat h) ->
  0 <= i < Z.of_nat w -> 0 <= j < Z.of_nat h ->
  grid_at g (Int i) (Int j) = Ok (Num (Spec.stored g i j)) /\
  cell_state (Spec.stored g i j).
Proof.
  intros Hs Hw Hh Hi Hj.
  destruct (grid_at_inside g i j w h) as (r & z & Hr & Hz & Hc & Hat); try done.
  unfold Spec.stored. rewrite Hr. cbn. rewrite Hz. done.
Qed.

Lemma cell_state_spec g (w h : nat) (a b : Z) :
  grid_shape g -> width g = Int (Z.of_nat w) -> height g = Int (Z.of_nat h) ->
  sound_lookup g (Z.of_nat w) (Z.of_nat h) a b ->
  cell g (Int a) (Int b) = Ok (Num (Spec.state g a b)).
Proof.
  intros Hs Hw Hh Hsound. unfold Spec.state. rewrite Hw, Hh. cbn [Spec.dimension].
  destruct (truthy (torus g)) eqn:Ht.
  - destruct Hsound as [|(HW & HH & Ha & Hb)]; [congruence|].
    destruct (cell_torus_wrap g w h a b) as (z & Hc & Hat & _); try done; try lia.
    rewrite Hc. f_equal. f_equal.
    pose proof (Z.mod_pos_bound a (Z.of_nat w) ltac:(lia)).
    pose proof (Z.mod_pos_bound b (Z.of_nat h) ltac:(lia)).
    destruct (stored_inside g (a mod Z.of_nat w) (b mod Z.of_nat h) w h)
      as [Hst _]; try done.
    congruence.
  - destruct ((0 <=? a) && (a <? Z.of_nat w) && (0 <=? b) && (b <? Z.of_nat h))
      eqn:Hin.
    + apply andb_prop in Hin as [Hin Hb2]. apply andb_prop in Hin as [Hin Hb1].
      apply andb_prop in Hin as [Ha1 Ha2].
      apply Z.leb_le in Ha1, Hb1. apply Z.ltb_lt in Ha2, Hb2.
      destruct (stored_inside g a b w h) as [Hst _]; try done.
      rewrite <- Hst. unfold cell. rewrite !Math_round_integral, Ht, Hw, Hh. cbn.
      destruct (Z.ltb_spec a 0); [lia|]. destruct (Z.leb_spec (Z.of_nat w) a); [lia|].
      destruct (Z.ltb_spec b 0); [lia|]. destruct (Z.leb_spec (Z.of_nat h) b); [lia|].
      done.
    + apply (cell_bounded_outside g a b (Z.of_nat w) (Z.of_nat h)); try done.
      intros [[] []].
      apply andb_false_iff in Hin as [Hin|Hin]; [|apply Z.ltb_ge in Hin; lia].
      apply andb_false_iff in Hin as [Hin|Hin]; [|apply Z.leb_gt in Hin; lia].
      apply andb_false_iff in Hin as [Hin|Hin]; [apply Z.leb_gt in Hin; lia|].
      apply Z.ltb_ge in Hin; lia.
Qed.

Lemma minus_one_mod (W : Z) : 2 <= W -> (-1) mod W <> 0.
Proof.
  intros HW. change (-1) with (Z.opp 1).
  rewrite (Z.mod_opp_l_nz 1 W); rewrite ?Z.mod_1_l; lia.
Qed.

Lemma neighbour_lookup_sound g (w h : nat) (i j di dj : Z) :
  steppable g ->
  width g = Int (Z.of_nat w) -> height g = Int (Z.of_nat h) ->
  0 <= i < Z.of_nat w -> 0 <= j < Z.of_nat h ->
  -1 <= di <= 1 -> -1 <= dj <= 1 ->
  sound_lookup g (Z.of_nat w) (Z.of_nat h) (i + di) (j + dj).
Proof.
  intros Hstep Hw Hh Hi Hj Hdi Hdj. unfold sound_lookup.
  destruct (truthy (torus g)) eqn:Ht; [right | by left].
  specialize (Hstep Ht). rewrite Hw, Hh in Hstep. cbn in Hstep.
  destruct Hstep as [|[|[HW HH]]]; [lia | lia |].
  repeat split; try lia.
  - destruct (Z.le_gt_cases 0 (i + di)); [by left | right].
    replace (i + di) with (-1) by lia. by apply minus_one_mod.
  - destruct (Z.le_gt_cases 0 (j + dj)); [by left | right].
    replace (j + dj) with (-1) by lia. by apply minus_one_mod.
Qed.

Lemma neighbours_spec g (w h : nat) (i j : Z) :
  grid_shape g -> steppable g ->
  width g = Int (Z.of_nat w) -> height g = Int (Z.of_nat h) ->
  0 <= i < Z.of_nat w -> 0 <= j < Z.of_nat h ->
  neighbours g (Int i) (Int j) = Ok (Int (Spec.live_neighbours g i j)).
Proof.
  intros Hs Hstep Hw Hh Hi Hj.
  assert (Hcell : forall di dj, -1 <= di <= 1 -> -1 <= dj <= 1 ->
             cell g (Int (i + di)) (Int (j + dj)) =
               Ok (Num (Spec.state g (i + di) (j + dj)))).
  { intros di dj Hdi Hdj. apply (cell_state_spec g w h); try done.
    by apply neighbour_lookup_sound. }
  unfold neighbours, isub. cbn [iadd ineg].
  replace (Int i) with (Int (i + 0)) by (f_equal; lia).
  replace (Int j) with (Int (j + 0)) by (f_equal; lia).
  rewrite !Hcell by lia. cbn [to_number iadd].
  unfold Spec.live_neighbours. rewrite !Z.add_0_r.
  replace (i + -1) with (i - 1) by lia. replace (j + -1) with (j - 1) by lia.
  done.
Qed.

Lemma rule_written (c n : Z) :
  (if Spec.rule c n =? alive then alive else dead) = Spec.rule c n.
Proof.
  unfold Spec.rule.
  destruct (c =? alive); destruct ((n =? 2) || (n =? 3)); destruct (n =? 3); done.
Qed.

Lemma update_filler_spec g (w h : nat) (i j : Z) this s :
  grid_shape g -> steppable g ->
  width g = Int (Z.of_nat w) -> height g = Int (Z.of_nat h) ->
  0 <= i < Z.of_nat w -> 0 <= j < Z.of_nat h ->
  let next := Spec.rule (Spec.stored g i j) (Spec.live_neighbours g i j) in
  update_filler g i j this s = Ok (next =? alive, s + Spec.live next).
Proof.
  intros Hs Hstep Hw Hh Hi Hj next. subst next.
  unfold update_filler, bind, lift.
  rewrite (neighbours_spec g w h) by done.
  destruct (stored_inside g i j w h) as [-> Hc]; try done.
  unfold Spec.rule, Spec.live, strict_eq.
  destruct Hc as [-> | ->]; cbn;
    destruct (Spec.live_neighbours g i j =? 2);
    destruct (Spec.live_neighbours g i j =? 3); cbn;
    unfold ret; f_equal; f_equal; lia.
Qed.

Lemma update_rows g (w h : nat) (i : Z) (cells : list (list Z)) (s : Z) :
  grid_shape g -> steppable g ->
  width g = Int (Z.of_nat w) -> array_length (height g) h ->
  0 <= i < Z.of_nat w ->
  let item :=
    (fun j => Spec.rule (Spec.stored g i j) (Spec.live_neighbours g i j))
      <$> seqZ 0 (Z.of_nat h) in
  (h0 <- lift (new_Array (height g)) ;;
   row <- for_range h0 0 (fun j row =>
            b <- update_filler g i j g ;;
            ret (row ++ [if b : bool then alive else dead])) [] ;;
   ret (cells ++ [row])) s
  = Ok (cells ++ [item], s + Spec.total Spec.live item).
Proof.
  intros Hs Hstep Hw [Hh Hmax] Hi item.
  unfold bind at 1. rewrite Hh, new_Array_Int by done. cbn [lift].
  unfold bind at 1.
  rewrite (for_range_push Spec.live _
             (fun j => Spec.rule (Spec.stored g i j) (Spec.live_neighbours g i j))).
  - done.
  - intros j acc s' Hj. unfold bind.
    rewrite (update_filler_spec g w h) by (done || lia).
    unfold ret. by rewrite rule_written.
Qed.

(** On every engine [update] computes the next generation of the
    specification from the grid before the step, and returns its number
    of live cells, provided a torus is at least 2 by 2 (or empty). *)
Theorem update_next_generation (g : GameOfLife) :
  grid_shape g -> steppable g ->
  update g =
    Ok (set_grid g (Spec.next_generation g),
        Spec.live_cells (Spec.next_generation g)).
Proof.
  intros Hs Hstep. pose proof Hs as (w & [Hw Hwmax] & Hlen & Hrows).
  unfold update, createGrid. unfold bind at 1.
  rewrite Hw, new_Array_Int by done. cbn [lift].
  unfold Spec.next_generation. rewrite Hw. cbn [Spec.dimension].
  destruct w as [|w'].
  { cbn. done. }
  set (w := Datatypes.S w') in *.
  destruct (grid g) as [|r0 rest] eqn:Hgrid; [cbn in Hlen; lia|].
  apply Forall_cons in Hrows as [(h & Hh & _) _].
  pose proof Hh as [Hh' _]. rewrite Hh'. cbn [Spec.dimension].
  unfold bind at 1.
  rewrite (for_range_push (Spec.total Spec.live) _
             (fun i => (fun j => Spec.rule (Spec.stored g i j)
                                   (Spec.live_neighbours g i j))
                         <$> seqZ 0 (Z.of_nat h))).
  - cbn. done.
  - intros i cells s Hi. rewrite <- Hh'.
    by apply (update_rows g w h).
Qed.

(** *** Construction and its checks *)



Lemma for_range_replicate {S A} (body : Z -> list A -> M S (list A)) (item : A) :
  (forall k acc s, body k acc s = Ok (acc ++ [item], s)) ->
  forall n start acc s,
    for_range n start body acc s = Ok (acc ++ replicate n item, s).
Proof.
  intros Hbody. induction n as [|n IH]; intros start acc s; cbn.
  - by rewrite app_nil_r.
  - unfold bind. rewrite Hbody, IH. by rewrite <- app_assoc.
Qed.

Lemma createGrid_without_filler {S} (g g' : GameOfLife) (s s' : S) :
  createGrid g None s = Ok (g', s') ->
  exists w h : nat,
    array_length (width g) w /\ (w = O \/ array_length (height g) h) /\
    g' = set_grid g (replicate w (replicate h dead)) /\ s' = s.
Proof.
  unfold createGrid. intros H.
  apply bind_ok in H as (w & s1 & Hw & H). apply lift_ok in Hw as [Hw ->].
  apply bind_ok in H as (cells & s2 & Hcells & H).
  inversion H; subst; clear H. apply new_Array_ok in Hw.
  destruct (new_Array (height g)) as [h|e] eqn:Hh.
  - exists w, h. pose proof (new_Array_ok _ _ Hh) as Hh'.
    split; [done|]. split; [by right|].
    rewrite (for_range_replicate _ (replicate h dead)) in Hcells.
    + by injection Hcells as <- <-.
    + intros k acc s0. done.
  - destruct w as [|w].
    + exists O, O. cbn in Hcells. injection Hcells as <- <-.
      split; [done|]. split; [by left | done].
    + cbn in Hcells. unfold bind in Hcells. cbn in Hcells. done.
Qed.







(** C10. When the filler argument is omitted ([undefined]) or [null] and
    construction succeeds, the seeded grid has [width] columns of
    [height] cells and every cell is [dead]. *)
Theorem constructor_without_filler {S} (canvas : canvas_arg) (v : value)
    (opts : option settings) (s s' : S) (g : GameOfLife) :
  v = VUndefined \/ v = VNull ->
  constructor canvas (NotFunction v) opts s = Ok (g, s') ->
  exists w h : nat,
    array_length (width g) w /\ (w = O \/ array_length (height g) h) /\
    grid g = replicate w (replicate h dead).
Proof.
  intros Hv Hctor.
  assert (Hfalsy : truthy v = false) by (by destruct Hv as [-> | ->]).
  unfold constructor in Hctor.
  destruct canvas as [cw ch|]; [|done].
  cbn [truthy] in Hctor. rewrite Hfalsy in Hctor.
  destruct (with_default (size (chosen opts)) (VNumber (Fin 10)))
    as [| | |n| |] eqn:Hsize;
    fold (chosen opts) in Hctor; rewrite Hsize in Hctor; try done.
  destruct (with_default (color (chosen opts)) (VString "#FF0000"))
    as [| | | |c|]; try done.
  destruct (isNaN n || negb (isFinite n) || negative n); [done|].
  apply createGrid_without_filler in Hctor as (w & h & Hw & Hh & -> & _).
  exists w, h. done.
Qed.

(** C10 on a 30 by 20 canvas with a [null] filler. *)
Lemma constructor_without_filler_witness :
  exists w h : nat,
    array_length (Int 3) w /\ (w = O \/ array_length (Int 2) h) /\
    [[0; 0]; [0; 0]; [0; 0]] = replicate w (replicate h dead).
Proof.
  exact (constructor_without_filler (S := unit)
           (HTMLCanvasElement 30 20) VNull None tt tt
           {| cellSize := Fin 10; cellColor := "#FF0000";
              width := Int 3; height := Int 2; torus := VBoolean false;
              grid := [[0; 0]; [0; 0]; [0; 0]];
              framesPerSecond := VNumber (Fin 5); handler := None |}
           (or_intror eq_refl) eq_refl).
Defined.


(** *** The decoder *)

Lemma rle_chars_app (a b : text) (st : rle_state) :
  rle_chars (a ++ b) st =
    match rle_chars a st with
    | Ok (Next st') => rle_chars b st'
    | other => other
    end.
Proof.
  revert st. induction a as [|c a IH]; intros st; cbn; [done|].
  destruct (rle_char c st) as [[st'|g]|e]; [apply IH | done | done].
Qed.

Lemma load_lines_body (lines : list text) (st : rle_state) :
  load_lines lines (Some st) =
    returned (rle_chars (concat (significant_lines lines)) st).
Proof.
  revert st. induction lines as [|line rest IH]; intros st; cbn; [done|].
  destruct (bool_decide (trim line = [])); [apply IH|].
  destruct (startsWith (trim line) "#"); [apply IH|].
  cbn. rewrite rle_chars_app.
  destruct (rle_chars (trim line) st) as [[st'|g]|e]; [apply IH | done | done].
Qed.

Lemma load_lines_header (lines : list text) :
  load_lines lines None =
    match significant_lines lines with
    | [] => Ok None
    | header :: body =>
        match header_dimensions header with
        | None => Throw (SyntaxError "Invalid header!")
        | Some (width, height) =>
            match header_grid (Z.to_nat height) width [] with
            | Ok grid => returned (rle_chars (concat body) (body_start grid))
            | Throw e => Throw e
            end
        end
    end.
Proof.
  induction lines as [|line rest IH]; cbn; [done|].
  destruct (bool_decide (trim line = [])); [apply IH|].
  destruct (startsWith (trim line) "#"); [apply IH|].
  destruct (header_dimensions (trim line)) as [[width height]|]; [|done].
  destruct (header_grid (Z.to_nat height) width []); [|done].
  apply load_lines_body.
Qed.




































(** *** Row ends and the end of the pattern *)

Lemma rle_char_row_end (st : rle_state) :
  rle_char "$" st =
    Ok (Next {| rle_grid := rle_grid st; runCount := runCount st;
                x := 0; y := y st + 1 |}).
Proof. reflexivity. Qed.

(** C5. [$] sets [x] to 0 and adds 1 to [y] but leaves the pending run
    count as it is: in [3$o!] the count 3 reaches the [o] that opens the
    next row, which marks three cells where a discarded count marks one. *)
Theorem row_end_keeps_pending_count :
  (forall st, exists st',
      rle_char "$" st = Ok (Next st') /\
      x st' = 0 /\ y st' = y st + 1 /\ runCount st' = runCount st) /\
  loadRle ("x = 3, y = 2" ++ nl ++ "3$o!") =
    Ok (Some [[Num dead; Num dead; Num dead];
              [Num alive; Num alive; Num alive]]).
Proof.
  split.
  - intros st. eexists. rewrite rle_char_row_end. done.
  - vm_compute. reflexivity.
Qed.

Lemma rle_chars_end_tag (before after : text) (st st' : rle_state) :
  rle_chars before st = Ok (Next st') ->
  rle_chars (before ++ "!"%char :: after) st = Ok (Return (rle_grid st')).
Proof. intros H. rewrite rle_chars_app, H. reflexivity. Qed.

Lemma rle_char_return (c : ascii) (st : rle_state) (grid : list row) :
  rle_char c st = Ok (Return grid) -> c = "!"%char.
Proof.
  unfold rle_char.
  destruct (Ascii.eqb c " " || Ascii.eqb c (ascii_of_nat 13)
            || Ascii.eqb c (ascii_of_nat 9)); [done|].
  destruct (is_digit c); [done|].
  destruct (Ascii.eqb c "o").
  { destruct (if runCount st =? 0 then _ else _); done. }
  destruct (Ascii.eqb c "b"); [done|].
  destruct (Ascii.eqb c "$"); [done|].
  destruct (Ascii.eqb_spec c "!"); done.
Qed.

Lemma rle_chars_without_end_tag (chars : text) (st : rle_state) grid :
  "!"%char ∉ chars -> rle_chars chars st <> Ok (Return grid).
Proof.
  revert st. induction chars as [|c rest IH]; intros st Hnot; cbn; [done|].
  apply not_elem_of_cons in Hnot as [Hc Hrest].
  destruct (rle_char c st) as [[st'|g]|e] eqn:Hstep; [by apply IH| |done].
  by apply rle_char_return in Hstep.
Qed.

Lemma trim_start_subseteq (s : text) : trim_start s ⊆ s.
Proof.
  induction s as [|c s IH]; cbn; [done|].
  destruct (is_space c); [|done]. intros d Hd. right. by apply IH.
Qed.

Lemma trim_subseteq (s : text) : trim s ⊆ s.
Proof.
  unfold trim. intros c Hc.
  rewrite elem_of_reverse in Hc. apply (trim_start_subseteq _ c) in Hc.
  rewrite elem_of_reverse in Hc. by apply (trim_start_subseteq _ c).
Qed.

Lemma significant_lines_chars (lines : list text) (c : ascii) :
  c ∈ concat (significant_lines lines) -> exists line, line ∈ lines /\ c ∈ line.
Proof.
  induction lines as [|line rest IH]; cbn; [by intros ?%elem_of_nil|].
  assert (Hrest : c ∈ concat (significant_lines rest) ->
                  exists l, l ∈ line :: rest /\ c ∈ l).
  { intros (l & Hl & Hc)%IH. exists l. split; [by right | done]. }
  destruct (bool_decide (trim line = [])); [done|].
  destruct (startsWith (trim line) "#"); [done|].
  cbn. intros [Hc|Hc]%elem_of_app; [|by apply Hrest].
  exists line. split; [by left | by apply trim_subseteq].
Qed.

Lemma split_lines_from_chars (cur s line : text) (c : ascii) :
  line ∈ split_lines_from cur s -> c ∈ line -> c ∈ cur \/ c ∈ s.
Proof.
  revert cur. induction s as [|d s IH]; intros cur; cbn.
  - intros ->%list_elem_of_singleton Hc. left. by rewrite elem_of_reverse in Hc.
  - destruct (Ascii.eqb d line_feed).
    + intros [->|Hin]%elem_of_cons Hc.
      * left. by rewrite elem_of_reverse in Hc.
      * destruct (IH [] Hin Hc) as [?%elem_of_nil|?]; [done|].
        right. by right.
    + intros Hin Hc. destruct (IH (d :: cur) Hin Hc) as [[->|?]%elem_of_cons|?].
      * right. by left.
      * by left.
      * right. by right.
Qed.

(** A pattern text without [!] never decodes to a grid. *)
Lemma loadRle_without_end_tag (runLengthEncoded : string) (grid : list row) :
  "!"%char ∉ list_ascii_of_string runLengthEncoded ->
  loadRle runLengthEncoded <> Ok (Some grid).
Proof.
  intros Hnot Hload. unfold loadRle in Hload.
  rewrite load_lines_header in Hload.
  destruct (significant_lines _) as [|header body] eqn:Hlines; [done|].
  destruct (header_dimensions header) as [[W H]|]; [|done].
  destruct (header_grid (Z.to_nat H) W []) as [blank|]; [|done].
  destruct (rle_chars (concat body) (body_start blank)) as [[st|g]|e] eqn:Hrun;
    try done.
  apply rle_chars_without_end_tag in Hrun; [done|].
  intros Hin.
  assert (Hsome : "!"%char ∈ concat
            (significant_lines
               (split_lines (list_ascii_of_string runLengthEncoded)))).
  { rewrite Hlines. cbn. apply elem_of_app. by right. }
  apply significant_lines_chars in Hsome as (line & Hline & Hc).
  unfold split_lines in Hline.
  destruct (split_lines_from_chars _ _ _ _ Hline Hc) as [?%elem_of_nil|?]; done.
Qed.

(** C6. At the end of an input without [!] the decoder returns
    [undefined], not the grid built so far, and [rleFiller] then throws;
    the same body closed by [!] decodes to the grid. *)
Theorem loadRle_end_of_input_returns_nothing :
  loadRle ("x = 1, y = 1" ++ nl ++ "o") = Ok None /\
  rleFiller_pattern ("x = 1, y = 1" ++ nl ++ "o") =
    Throw (TypeError "Cannot read properties of undefined") /\
  loadRle ("x = 1, y = 1" ++ nl ++ "o!") = Ok (Some [[Num alive]]).
Proof. repeat split; vm_compute; reflexivity. Qed.

(** *** Wrapping at the negative multiples of a dimension *)

Lemma cell_torus_negative_multiple (g : GameOfLife) (W i j : Z) :
  grid_shape g -> truthy (torus g) = true -> width g = Int W ->
  0 < W -> i < 0 -> i mod W = 0 ->
  cell g (Int i) (Int j) =
    Throw (TypeError "Cannot read properties of undefined").
Proof.
  intros (w & [Hw _] & Hlen & _) Ht HW Hpos Hi Hm.
  rewrite cell_torus_finite by done. rewrite HW.
  rewrite wrap_negative_multiple by done.
  unfold grid_at. rewrite array_get_Int by lia.
  rewrite HW in Hw. injection Hw as ->.
  rewrite lookup_ge_None_2 by lia. done.
Qed.

(** C2. On a 3 by 3 torus [cell(-3, 1)] reads column 3, outside the grid,
    and throws, and [cell(1, -3)] reads row 3 and returns [undefined],
    while floor modulo maps -3 to 0; coordinates that are not negative
    multiples of the dimension wrap as the claim states. *)
Theorem cell_torus_wraps_one_past_the_end :
  cell torus_3x3 (Int (-3)) (Int 1) =
    Throw (TypeError "Cannot read properties of undefined") /\
  cell torus_3x3 (Int 1) (Int (-3)) = Ok Undefined /\
  cell torus_3x3 (Int ((-3) mod 3)) (Int 1) = Ok (Num dead) /\
  cell torus_3x3 (Int 1) (Int ((-3) mod 3)) = Ok (Num dead) /\
  cell torus_3x3 (Int (-2)) (Int 4) = cell torus_3x3 (Int 1) (Int 1).
Proof. repeat split; vm_compute; reflexivity. Qed.

(** C1. On a torus one column wide [update] throws instead of computing
    the next generation; on a torus one row high the neighbour sum is NaN
    and every cell dies, where the rule of the specification keeps the
    cells alive. *)
Theorem update_fails_on_unit_torus :
  update torus_1x3 = Throw (TypeError "Cannot read properties of undefined") /\
  update torus_3x1 = Ok (set_grid torus_3x1 [[0]; [0]; [0]], 0) /\
  Spec.next_generation torus_3x1 = [[1]; [1]; [1]] /\
  neighbours torus_3x1 (Int 1) (Int 0) = Ok INaN.
Proof. repeat split; vm_compute; reflexivity. Qed.


(** *** The centering offset of a pattern filler *)

Lemma rle_predicate_first_call (p : pattern) (i j : Z) (g : GameOfLife) :
  exists b,
    rle_predicate p i j g (None, None) =
      Ok (b, (Some (floor_half (isub (width g) (Int (pattern_width p)))),
              Some (floor_half (isub (height g) (Int (pattern_height p)))))).
Proof. unfold rle_predicate, bind, get, put, ret. cbn. eexists. reflexivity. Qed.

(** An offset with two non-zero components is kept by every later call. *)
Lemma rle_predicate_keeps_nonzero_offset (p : pattern) (i j a b : Z)
    (g : GameOfLife) :
  a <> 0 -> b <> 0 ->
  exists r,
    rle_predicate p i j g (Some (Int a), Some (Int b)) =
      Ok (r, (Some (Int a), Some (Int b))).
Proof.
  intros Ha Hb. unfold rle_predicate, bind, get, put, ret. cbn.
  destruct (Z.eqb_spec a 0); [done|]. destruct (Z.eqb_spec b 0); [done|].
  eexists. reflexivity.
Qed.

(** C7. An offset component equal to 0 is not kept. The one-cell pattern
    bound to a 1 by 1 engine gets the offset (0, 0); a later call that
    sees an 11 by 11 engine replaces it by (5, 5), so that (5, 5) is
    reported alive and (0, 0) dead. *)
Theorem rle_predicate_recomputes_zero_offset :
  rleFiller_pattern ("x = 1, y = 1" ++ nl ++ "o!") = Ok dot /\
  rle_predicate dot 0 0 (engine 1 1 false []) (None, None) =
    Ok (true, (Some (Int 0), Some (Int 0))) /\
  rle_predicate dot 5 5 (engine 11 11 false []) (Some (Int 0), Some (Int 0)) =
    Ok (true, (Some (Int 5), Some (Int 5))) /\
  rle_predicate dot 0 0 (engine 11 11 false []) (Some (Int 0), Some (Int 0)) =
    Ok (false, (Some (Int 5), Some (Int 5))).
Proof. repeat split; vm_compute; reflexivity. Qed.

(** *** The run loop *)

Lemma set_handler_same (g : GameOfLife) :
  handler g = None -> set_handler g None = g.
Proof. destruct g. cbn. by intros ->. Qed.

Lemma stop_idle (w : browser) : handler (game w) = None -> stop w = w.
Proof.
  intros Hh. unfold stop. rewrite Hh, set_handler_same by done. by destruct w.
Qed.

Lemma start_twice (w : browser) : start (start w) = start w.
Proof.
  unfold start at 2. destruct (handler (game w)) eqn:Hh.
  - unfold start. by rewrite Hh.
  - unfold start at 2. rewrite Hh. reflexivity.
Qed.

Lemma start_schedules_one (w : browser) :
  single_flight w -> handler (game w) = None ->
  pending_steps (start (start w)) = 1%nat.
Proof.
  intros [_ Hidle] Hh. rewrite start_twice. specialize (Hidle Hh).
  unfold start. rewrite Hh. unfold pending_steps in *. cbn.
  rewrite length_app. cbn. lia.
Qed.

Lemma single_flight_boot (g : GameOfLife) : single_flight (boot g).
Proof. unfold single_flight, pending_steps. vm_compute. split; [lia | done]. Qed.

Lemma single_flight_start (w : browser) :
  single_flight w -> single_flight (start w).
Proof.
  intros Hw. pose proof Hw as [Hle Hidle]. unfold start.
  destruct (handler (game w)) eqn:Hh; [exact Hw|].
  specialize (Hidle eq_refl). unfold single_flight, pending_steps in *. cbn.
  rewrite length_app. cbn. split; [lia | done].
Qed.

Lemma single_flight_timer_fires (id : nat) (w : browser) :
  single_flight w -> single_flight (timer_fires id w).
Proof.
  intros Hw. pose proof Hw as [Hle Hidle]. unfold timer_fires.
  destruct (bool_decide (id ∈ timers w)) eqn:Hin; [|exact Hw].
  apply bool_decide_eq_true in Hin.
  unfold single_flight, pending_steps in *. cbn.
  destruct (timers w) as [|t ts] eqn:Ht; [by apply elem_of_nil in Hin|].
  cbn in Hle. assert (ts = []) as -> by (destruct ts; [done | cbn in Hle; lia]).
  assert (filter (fun f => f = StepFrame) (frames w) = []) as Hnone
    by (destruct (filter _ (frames w)); [done | cbn in Hle; lia]).
  apply list_elem_of_singleton in Hin as ->.
  rewrite filter_app, Hnone. unfold clearTimeout. cbn.
  rewrite decide_False by (intros H; by apply H).
  rewrite decide_True by done. cbn.
  split; [lia|]. intros Hh. specialize (Hidle Hh). cbn in Hidle. lia.
Qed.

Lemma single_flight_frame_fires (w : browser) :
  single_flight w -> single_flight (frame_fires w).
Proof.
  intros Hw. pose proof Hw as [Hle Hidle]. unfold frame_fires.
  destruct (frames w) as [|[|] rest] eqn:Hf; [exact Hw | |].
  - unfold single_flight, pending_steps in *. cbn. rewrite Hf in *.
    rewrite filter_cons_False in Hle, Hidle by done. done.
  - unfold single_flight, pending_steps in Hle, Hidle. rewrite Hf in *.
    rewrite filter_cons_True in Hle, Hidle by done. cbn in Hle, Hidle.
    assert (Ht : timers w = []) by (destruct (timers w); [done | cbn in Hle; lia]).
    assert (Hr : filter (fun f => f = StepFrame) rest = [])
      by (destruct (filter _ rest); [done | cbn in Hle; lia]).
    destruct (update (game w)) as [[g count]|e].
    + destruct (0 <? count).
      * apply single_flight_start. unfold single_flight, pending_steps. cbn.
        rewrite Ht, Hr. cbn. split; [lia | done].
      * unfold single_flight, pending_steps. cbn. rewrite Ht, Hr. cbn.
        split; [lia | done].
    + unfold single_flight, pending_steps. cbn. rewrite Ht, Hr. cbn.
      split; [lia | done].
Qed.

(** While [stop] is not called, at most one step is ever scheduled. *)
Lemma single_flight_without_stop (events : list event) (w : browser) :
  single_flight w -> forallb (fun e => negb (is_stop e)) events = true ->
  single_flight (run w events).
Proof.
  revert w. induction events as [|e events IH]; intros w Hw Hev; [done|].
  cbn in Hev. apply andb_prop in Hev as [He Hev].
  cbn. apply IH; [|done].
  destruct e; cbn in He; try done; cbn.
  - by apply single_flight_start.
  - by apply single_flight_timer_fires.
  - by apply single_flight_frame_fires.
Qed.

(** C9. [stop] called after a timeout has fired and before the animation
    frame it requested has run does not cancel that frame: after a
    further [start] the frame schedules a second timeout, and two steps
    are pending. [start] called twice schedules one step, and [stop] on
    an idle engine changes nothing. *)
Theorem stop_between_timeout_and_frame_doubles_the_loop :
  let w := run (boot block_4x4)
             [FrameFires; CallStart; TimerFires 1; CallStop; CallStart;
              FrameFires] in
  timers w = [2; 3]%nat /\ pending_steps w = 2%nat /\
  handler (game w) = Some 3%nat /\
  pending_steps (run (boot block_4x4) [CallStart; CallStart]) = 1%nat /\
  stop (boot block_4x4) = boot block_4x4.
Proof. repeat split; vm_compute; reflexivity. Qed.

(** *** Every engine that the code can reach has a well-shaped grid *)

Lemma constructor_shape {S} (canvas : canvas_arg) (fill : filler_arg S)
    (opts : option settings) (s s' : S) (g : GameOfLife) :
  constructor canvas fill opts s = Ok (g, s') -> grid_shape g.
Proof.
  unfold constructor. destruct canvas as [cw ch|]; [|done].
  destruct (match fill with
            | NotFunction v => truthy v
            | Function _ => false
            end); [done|].
  destruct (with_default (size _) _) as [| | |n| |]; try done.
  destruct (with_default (color _) _) as [| | | |c|]; try done.
  destruct (isNaN n || negb (isFinite n) || negative n); [done|].
  intros H. by apply createGrid_ok in H as [H _].
Qed.

Lemma update_shape (g g' : GameOfLife) (count : Z) :
  update g = Ok (g', count) ->
  grid_shape g' /\ torus g' = torus g /\
  width g' = width g /\ height g' = height g.
Proof.
  unfold update. intros H. apply createGrid_ok in H as [H (cells & ->)]. done.
Qed.

(** *** The examples of the specification *)

Example glider_decodes :
  loadRle ("x = 3, y = 3" ++ nl ++ "bo$2bo$3o!") =
    Ok (Some [[Num 0; Num 1; Num 0];
              [Num 0; Num 0; Num 1];
              [Num 1; Num 1; Num 1]]).
Proof. vm_compute. reflexivity. Qed.

Example blinker_oscillates :
  let blinker := engine 3 3 false [[0; 0; 0]; [1; 1; 1]; [0; 0; 0]] in
  update blinker = Ok (engine 3 3 false [[0; 1; 0]; [0; 1; 0]; [0; 1; 0]], 3) /\
  update (engine 3 3 false [[0; 1; 0]; [0; 1; 0]; [0; 1; 0]]) = Ok (blinker, 3).
Proof. split; vm_compute; reflexivity. Qed.

Example empty_grid_stays_empty :
  let empty := engine 3 2 true [[0; 0]; [0; 0]; [0; 0]] in
  update empty = Ok (empty, 0).
Proof. vm_compute. reflexivity. Qed.

Example block_is_still :
  update block_4x4 = Ok (block_4x4, 4).
Proof. vm_compute. reflexivity. Qed.

(** *** More on the engine *)

Lemma for_range_state_inv {S A} (P : A -> S -> Prop)
    (body : Z -> A -> M S A) :
  (forall i a s a' s', P a s -> body i a s = Ok (a', s') -> P a' s') ->
  forall n start acc s r s',
    P acc s -> for_range n start body acc s = Ok (r, s') -> P r s'.
Proof.
  intros Hstep. induction n as [|n IH]; intros start acc s r s' HP Hrun.
  - cbn in Hrun. by inversion Hrun; subst.
  - cbn in Hrun. apply bind_ok in Hrun as (a & s1 & Hb & Hrest).
    eapply IH; [|exact Hrest]. eapply Hstep; eauto.
Qed.

(** A loop whose turns append a known item and keep an invariant of the
    state. *)
Lemma for_range_push_inv {S A} (Inv : S -> Prop)
    (body : Z -> list A -> M S (list A)) (item : Z -> A) (n : nat) :
  forall start acc s,
    Inv s ->
    (forall k acc s, Inv s -> start <= k < start + Z.of_nat n ->
       exists s', body k acc s = Ok (acc ++ [item k], s') /\ Inv s') ->
    exists s',
      for_range n start body acc s =
        Ok (acc ++ (item <$> seqZ start (Z.of_nat n)), s') /\ Inv s'.
Proof.
  induction n as [|n IH]; intros start acc s Hs Hbody.
  - exists s. cbn. by rewrite app_nil_r.
  - rewrite seqZ_succ. cbn [for_range]. unfold bind at 1.
    destruct (Hbody start acc s Hs ltac:(lia)) as (s1 & -> & Hs1).
    destruct (IH (start + 1) (acc ++ [item start]) s1 Hs1) as (s2 & -> & Hs2).
    { intros k acc' s' Hs' Hk. apply Hbody; [done | lia]. }
    exists s2. cbn. by rewrite <- app_assoc.
Qed.

Lemma total_snoc {A} (measure : A -> Z) (l : list A) (a : A) :
  Spec.total measure (l ++ [a]) = Spec.total measure l + measure a.
Proof.
  unfold Spec.total. induction l as [|b l IH]; cbn; [lia | rewrite IH; lia].
Qed.

Lemma total_nonneg {A} (measure : A -> Z) (l : list A) :
  (forall a, 0 <= measure a) -> 0 <= Spec.total measure l.
Proof.
  intros Hm. unfold Spec.total. induction l as [|a l IH]; cbn; [lia|].
  specialize (Hm a). lia.
Qed.

Lemma update_filler_counts (g this : GameOfLife) (i j : Z) (s s' : Z) (b : bool) :
  update_filler g i j this s = Ok (b, s') ->
  s' = s + Spec.live (if b then alive else dead).
Proof.
  unfold update_filler, bind, lift, get, put, ret.
  destruct (neighbours g (Int i) (Int j)) as [n|]; [|done].
  destruct (grid_at g (Int i) (Int j)) as [[|[|[| |]|]]|]; try done;
    try (intros [= <- <-]; cbn; lia).
  - destruct (strict_eq n 3); intros [= <- <-]; cbn; lia.
  - destruct (strict_eq n 2 || strict_eq n 3); intros [= <- <-]; cbn; lia.
Qed.

Lemma update_returns_live_cells (g g' : GameOfLife) (count : Z) :
  update g = Ok (g', count) -> count = Spec.live_cells (grid g').
Proof.
  intros Hup. unfold update, createGrid in Hup.
  apply bind_ok in Hup as (w & s1 & Hw' & Hup). apply lift_ok in Hw' as [_ ->].
  apply bind_ok in Hup as (cells & s2 & Hcells & Hup).
  injection Hup as <- <-. cbn [grid set_grid].
  apply (for_range_state_inv
           (fun cells s => s = Spec.live_cells cells)) in Hcells; [done| |done].
  clear. intros i cells s cells' s' -> Hbody.
  apply bind_ok in Hbody as (h & s1 & Hh & Hbody). apply lift_ok in Hh as [_ ->].
  apply bind_ok in Hbody as (r & s2 & Hr & Hbody).
  injection Hbody as <- <-.
  apply (for_range_state_inv
           (fun r s => s = Spec.live_cells cells + Spec.total Spec.live r))
    in Hr.
  - unfold Spec.live_cells. by rewrite total_snoc.
  - clear. intros j r s r' s' -> Hbody.
    apply bind_ok in Hbody as (b & s1 & Hb & Hbody).
    injection Hbody as <- <-. apply update_filler_counts in Hb.
    rewrite total_snoc. lia.
  - cbn. lia.
Qed.

(** X2. Whenever [update] returns, the count it returns is the number of
    live cells of the grid it has built, the new grid is well shaped and
    the dimensions and the topology are those before the step. *)
Theorem update_counts_live_cells (g g' : GameOfLife) (count : Z) :
  update g = Ok (g', count) ->
  count = Spec.live_cells (grid g') /\ 0 <= count /\
  grid_shape g' /\
  width g' = width g /\ height g' = height g /\ torus g' = torus g.
Proof.
  intros Hup. pose proof (update_shape g g' count Hup) as (Hshape & Ht & Hw & Hh).
  pose proof (update_returns_live_cells g g' count Hup) as Hcount.
  repeat split; try done.
  rewrite Hcount. apply total_nonneg. intros r. apply total_nonneg.
  intros c. unfold Spec.live. destruct (c =? alive); lia.
Qed.

Lemma update_counts_live_cells_witness :
  4 = Spec.live_cells (grid block_4x4) /\ 0 <= 4 /\
  grid_shape block_4x4 /\
  width block_4x4 = width block_4x4 /\ height block_4x4 = height block_4x4 /\
  torus block_4x4 = torus block_4x4.
Proof. exact (update_counts_live_cells block_4x4 block_4x4 4 eq_refl). Defined.

Lemma stored_next_generation (g : GameOfLife) (i j : Z) :
  0 <= i < Spec.dimension (width g) -> 0 <= j < Spec.dimension (height g) ->
  Spec.stored (set_grid g (Spec.next_generation g)) i j =
    Spec.rule (Spec.stored g i j) (Spec.live_neighbours g i j).
Proof.
  intros Hi Hj. unfold Spec.stored at 1. cbn [grid set_grid].
  unfold Spec.next_generation. rewrite list_lookup_fmap.
  rewrite (lookup_seqZ_lt 0) by lia. cbn.
  rewrite list_lookup_fmap. rewrite (lookup_seqZ_lt 0) by lia. cbn.
  by rewrite !Z2Nat.id by lia.
Qed.

(** X1. On a well-shaped grid that is bounded, or a torus at least 2 by 2
    (or empty), [update] returns, and every cell of the new grid is the
    rule of Life applied to its state before the step and to the sum of
    its eight neighbours before the step. *)
Theorem update_applies_the_rule (g : GameOfLife) :
  grid_shape g -> steppable g ->
  exists g' count,
    update g = Ok (g', count) /\
    forall i j : Z,
      0 <= i < Spec.dimension (width g) ->
      0 <= j < Spec.dimension (height g) ->
      Spec.stored g' i j =
        Spec.rule (Spec.stored g i j) (Spec.live_neighbours g i j).
Proof.
  intros Hshape Hstep. eexists _, _.
  split; [by apply update_next_generation|].
  intros i j. apply stored_next_generation.
Qed.

Lemma update_applies_the_rule_witness :
  exists g' count,
    update torus_3x3 = Ok (g', count) /\
    forall i j : Z,
      0 <= i < 3 -> 0 <= j < 3 ->
      Spec.stored g' i j =
        Spec.rule (Spec.stored torus_3x3 i j)
          (Spec.live_neighbours torus_3x3 i j).
Proof.
  apply (update_applies_the_rule torus_3x3).
  - exists 3%nat. split; [split; [reflexivity | vm_compute; discriminate]|].
    split; [reflexivity|].
    repeat constructor; exists 3%nat;
      (split; [split; [reflexivity | vm_compute; discriminate]|]);
      (split; [reflexivity|]); repeat constructor; (by left) || (by right).
  - intros _. right. right. cbn. lia.
Defined.

Lemma grid_shape_dimensions (g : GameOfLife) :
  grid_shape g ->
  exists w : nat, width g = Int (Z.of_nat w) /\ length (grid g) = w /\
    (w = O \/ exists h : nat, height g = Int (Z.of_nat h) /\
                Forall (fun r => length r = h /\ Forall cell_state r) (grid g)).
Proof.
  intros (w & [Hw _] & Hlen & Hrows). exists w. split; [done|]. split; [done|].
  destruct (grid g) as [|r0 rest] eqn:Hgrid; [left; cbn in Hlen; lia | right].
  pose proof (Forall_inv Hrows) as (h & [Hh _] & _).
  exists h. split; [done|].
  eapply Forall_impl; [exact Hrows|]. cbn.
  intros r (h' & [Hh' _] & Hl & Hc). rewrite Hh in Hh'.
  injection Hh' as Hh'. apply Nat2Z.inj in Hh'. by subst h'.
Qed.

Lemma all_dead_stored (g : GameOfLife) (i j : Z) :
  Forall (Forall (fun c => c = dead)) (grid g) -> Spec.stored g i j = dead.
Proof.
  intros Hdead. unfold Spec.stored.
  destruct (grid g !! Z.to_nat i) as [r|] eqn:Hr; [|done]. cbn.
  destruct (r !! Z.to_nat j) as [c|] eqn:Hc; [|done]. cbn.
  pose proof (Forall_lookup_1 _ _ _ _ Hdead Hr) as Hrow.
  exact (Forall_lookup_1 _ _ _ _ Hrow Hc).
Qed.

Lemma all_dead_state (g : GameOfLife) (i j : Z) :
  Forall (Forall (fun c => c = dead)) (grid g) -> Spec.state g i j = dead.
Proof.
  intros Hdead. unfold Spec.state.
  destruct (truthy (torus g)); [by apply all_dead_stored|].
  destruct (_ && _); [by apply all_dead_stored | done].
Qed.

Lemma all_dead_live_cells (cells : list (list Z)) :
  Forall (Forall (fun c => c = dead)) cells -> Spec.live_cells cells = 0.
Proof.
  assert (Hrow : forall r : list Z,
             Forall (fun c => c = dead) r -> Spec.total Spec.live r = 0).
  { intros r Hr. unfold Spec.total.
    induction Hr as [|c r Hc _ IHr]; cbn; [done|].
    rewrite IHr, Hc. reflexivity. }
  intros Hdead. unfold Spec.live_cells. unfold Spec.total at 1.
  induction Hdead as [|r rs Hr _ IH]; cbn; [done|].
  rewrite IH. fold (Spec.total Spec.live r). by rewrite Hrow.
Qed.

(** X3. An empty grid stays empty: on a well-shaped grid without a live
    cell (bounded, or a torus at least 2 by 2) [update] leaves the engine
    as it is and returns 0. *)
Theorem update_empty_grid (g : GameOfLife) :
  grid_shape g -> steppable g ->
  Forall (Forall (fun c => c = dead)) (grid g) ->
  update g = Ok (g, 0).
Proof.
  intros Hshape Hstep Hdead. rewrite update_next_generation by done.
  assert (Hnext : Spec.next_generation g = grid g).
  { unfold Spec.next_generation.
    destruct (grid_shape_dimensions g Hshape) as (w & Hw & Hlen & Hrows).
    rewrite Hw. cbn [Spec.dimension]. apply list_eq. intros i.
    rewrite list_lookup_fmap.
    destruct (Z.ltb_spec (Z.of_nat i) (Z.of_nat w)) as [Hi|Hi].
    - rewrite (lookup_seqZ_lt 0) by lia. cbn.
      destruct (lookup_lt_is_Some_2 (grid g) i) as [r Hr]; [lia|]. rewrite Hr.
      f_equal. destruct Hrows as [->|(h & Hh & Hrows)]; [lia|].
      rewrite Hh. cbn [Spec.dimension].
      pose proof (Forall_lookup_1 _ _ _ _ Hrows Hr) as [Hrl _].
      pose proof (Forall_lookup_1 _ _ _ _ Hdead Hr) as Hrow.
      apply list_eq. intros j. rewrite list_lookup_fmap.
      destruct (Z.ltb_spec (Z.of_nat j) (Z.of_nat h)) as [Hj|Hj].
      + rewrite (lookup_seqZ_lt 0) by lia. cbn.
        destruct (lookup_lt_is_Some_2 r j) as [c Hc]; [lia|]. rewrite Hc.
        rewrite (Forall_lookup_1 _ _ _ _ Hrow Hc). f_equal.
        rewrite all_dead_stored by done.
        unfold Spec.live_neighbours. rewrite !all_dead_state by done. done.
      + rewrite lookup_seqZ_ge by lia. cbn. symmetry. apply lookup_ge_None. lia.
    - rewrite lookup_seqZ_ge by lia. cbn. symmetry. apply lookup_ge_None. lia. }
  pose proof (all_dead_live_cells (grid g) Hdead) as Hnone.
  rewrite Hnext, Hnone. by destruct g.
Qed.

Lemma update_empty_grid_witness :
  update (engine 3 2 true [[0; 0]; [0; 0]; [0; 0]]) =
    Ok (engine 3 2 true [[0; 0]; [0; 0]; [0; 0]], 0).
Proof.
  apply update_empty_grid.
  - exists 3%nat. split; [split; [reflexivity | vm_compute; discriminate]|].
    split; [reflexivity|].
    repeat constructor; exists 2%nat;
      (split; [split; [reflexivity | vm_compute; discriminate]|]);
      (split; [reflexivity|]); repeat constructor; (by left) || (by right).
  - intros _. right. right. cbn. lia.
  - repeat constructor.
Defined.

(** X4. What [cell] reads at integer coordinates of a well-shaped grid:
    inside a bounded grid the state stored there; on a torus the state
    stored at the coordinates taken floor-modulo the dimensions, for every
    coordinate that is not a negative multiple of its dimension. *)
Theorem cell_reads_the_grid (g : GameOfLife) (W H i j : Z) :
  grid_shape g -> width g = Int W -> height g = Int H ->
  (truthy (torus g) = false -> 0 <= i < W -> 0 <= j < H ->
   cell g (Int i) (Int j) = Ok (Num (Spec.stored g i j))) /\
  (truthy (torus g) = true -> 0 < W -> 0 < H ->
   0 <= i \/ i mod W <> 0 -> 0 <= j \/ j mod H <> 0 ->
   cell g (Int i) (Int j) = Ok (Num (Spec.stored g (i mod W) (j mod H)))).
Proof.
  intros Hshape HW HH.
  destruct (grid_shape_dimensions g Hshape) as (w & Hw & Hlen & Hrows).
  rewrite HW in Hw. injection Hw as ->.
  assert (Hspec : 0 < Z.of_nat w ->
            forall a b, sound_lookup g (Z.of_nat w) H a b ->
                        cell g (Int a) (Int b) = Ok (Num (Spec.state g a b))).
  { intros Hpos a b Hsound.
    destruct Hrows as [->|(h & Hh & _)]; [lia|].
    rewrite HH in Hh. injection Hh as ->.
    by apply (cell_state_spec g w h). }
  split.
  - intros Ht Hi Hj. rewrite Hspec; [|lia | by left].
    unfold Spec.state. rewrite Ht, HW, HH. cbn [Spec.dimension].
    destruct (Z.leb_spec 0 i); [|lia]. destruct (Z.ltb_spec i (Z.of_nat w)); [|lia].
    destruct (Z.leb_spec 0 j); [|lia]. destruct (Z.ltb_spec j H); [|lia]. done.
  - intros Ht HWpos HHpos Hi Hj. rewrite Hspec; [|lia | by right].
    unfold Spec.state. by rewrite Ht, HW, HH.
Qed.

Lemma cell_reads_the_grid_witness :
  (truthy (torus torus_3x3) = false -> 0 <= -2 < 3 -> 0 <= 4 < 3 ->
   cell torus_3x3 (Int (-2)) (Int 4) = Ok (Num (Spec.stored torus_3x3 (-2) 4))) /\
  (truthy (torus torus_3x3) = true -> 0 < 3 -> 0 < 3 ->
   0 <= -2 \/ (-2) mod 3 <> 0 -> 0 <= 4 \/ 4 mod 3 <> 0 ->
   cell torus_3x3 (Int (-2)) (Int 4) =
     Ok (Num (Spec.stored torus_3x3 ((-2) mod 3) (4 mod 3)))).
Proof.
  apply (cell_reads_the_grid torus_3x3 3 3 (-2) 4); [|reflexivity|reflexivity].
  exists 3%nat. split; [split; [reflexivity | vm_compute; discriminate]|].
  split; [reflexivity|].
  repeat constructor; exists 3%nat;
    (split; [split; [reflexivity | vm_compute; discriminate]|]);
    (split; [reflexivity|]); repeat constructor; (by left) || (by right).
Defined.

Lemma Math_round_of_integral (n : integral) : Math_round n = n.
Proof. destruct n; try done. apply Math_round_integral. Qed.

(** X5. [cell] looks at its arguments through [Math.round] only: any two
    numbers address the cell of their nearest integers (a half rounds
    up). *)
Theorem cell_rounds_its_arguments (g : GameOfLife) (i j : number) :
  cell g i j = cell g (Math_round i) (Math_round j).
Proof. unfold cell. by rewrite !Math_round_of_integral. Qed.

(** X6. With a filler that does not throw, [#createGrid] calls it exactly
    once for every cell, column after column and down each column, and
    stores [alive] where it answered true and [dead] elsewhere. *)
Theorem createGrid_calls_filler_once_per_cell (g : GameOfLife)
    (answer : Z -> Z -> bool) (w h : nat) :
  array_length (width g) w -> array_length (height g) h ->
  createGrid g (Some (logging_filler answer)) [] =
    Ok (set_grid g (seeded answer w h), cells_in_order w h).
Proof.
  intros [Hw Hwmax] [Hh Hhmax]. unfold createGrid, bind at 1.
  rewrite Hw, new_Array_Int by done. cbn [lift]. unfold bind at 1.
  assert (Hrow : forall i cells log,
            (h0 <- lift (new_Array (Int (Z.of_nat h))) ;;
             row <- for_range h0 0 (fun j row =>
                      b <- logging_filler answer i j g ;;
                      ret (row ++ [if b : bool then alive else dead])) [] ;;
             ret (cells ++ [row])) log
            = Ok (cells ++ [(fun j => if answer i j then alive else dead)
                              <$> seqZ 0 (Z.of_nat h)],
                  log ++ ((fun j => (i, j)) <$> seqZ 0 (Z.of_nat h)))).
  { intros i cells log. unfold bind at 1. rewrite new_Array_Int by done.
    cbn [lift]. unfold bind at 1.
    assert (Hgen : forall n start row log,
              for_range n start (fun j row =>
                  b <- logging_filler answer i j g ;;
                  ret (row ++ [if b : bool then alive else dead])) row log
              = Ok (row ++ ((fun j => if answer i j then alive else dead)
                              <$> seqZ start (Z.of_nat n)),
                    log ++ ((fun j => (i, j)) <$> seqZ start (Z.of_nat n)))).
    { induction n as [|n IH]; intros start row log'.
      - cbn. by rewrite !app_nil_r.
      - rewrite seqZ_succ. cbn [for_range]. unfold bind at 1.
        unfold bind at 1, logging_filler at 1. cbn [ret].
        rewrite IH. cbn. by rewrite <- !app_assoc. }
    rewrite Hgen. done. }
  rewrite Hh.
  assert (Hgen : forall n start cells log,
            for_range n start (fun i cells =>
                h0 <- lift (new_Array (Int (Z.of_nat h))) ;;
                row <- for_range h0 0 (fun j row =>
                         b <- logging_filler answer i j g ;;
                         ret (row ++ [if b : bool then alive else dead])) [] ;;
                ret (cells ++ [row])) cells log
            = Ok (cells ++ ((fun i => (fun j => if answer i j then alive else dead)
                                        <$> seqZ 0 (Z.of_nat h))
                              <$> seqZ start (Z.of_nat n)),
                  log ++ (i ← seqZ start (Z.of_nat n);
                          (fun j => (i, j)) <$> seqZ 0 (Z.of_nat h)))).
  { induction n as [|n IH]; intros start cells log.
    - cbn. by rewrite !app_nil_r.
    - rewrite seqZ_succ. cbn [for_range]. unfold bind at 1.
      rewrite Hrow, IH. cbn. by rewrite <- !app_assoc. }
  rewrite Hgen. done.
Qed.

Lemma createGrid_calls_filler_once_per_cell_witness :
  createGrid block_4x4 (Some (logging_filler (fun i j => i =? j))) [] =
    Ok (set_grid block_4x4 (seeded (fun i j => i =? j) 4 4),
        cells_in_order 4 4).
Proof.
  apply createGrid_calls_filler_once_per_cell;
    (split; [reflexivity | vm_compute; discriminate]).
Defined.

(** *** Seeding from a pattern *)

Lemma rle_predicate_centred (p : pattern) (g : GameOfLife) (W H i j : Z)
    (t : translation) :
  width g = Int W -> height g = Int H ->
  let tx := (W - pattern_width p) / 2 in
  let ty := (H - pattern_height p) / 2 in
  t = (None, None) \/ t = (Some (Int tx), Some (Int ty)) ->
  rle_predicate p i j g t =
    Ok (pattern_alive p (i - tx) (j - ty), (Some (Int tx), Some (Int ty))).
Proof.
  intros HW HH tx ty Ht.
  unfold rle_predicate, bind, get, put, ret. rewrite HW, HH.
  assert (Hx : set_if_unset (fst t)
                 (floor_half (isub (Int W) (Int (pattern_width p)))) = Int tx).
  { unfold isub. cbn [ineg iadd floor_half]. rewrite Z.add_opp_r.
    destruct Ht as [-> | ->]; cbn; [done|]. by destruct (tx =? 0). }
  assert (Hy : set_if_unset (snd t)
                 (floor_half (isub (Int H) (Int (pattern_height p)))) = Int ty).
  { unfold isub. cbn [ineg iadd floor_half]. rewrite Z.add_opp_r.
    destruct Ht as [-> | ->]; cbn; [done|]. by destruct (ty =? 0). }
  rewrite Hx, Hy. unfold isub. cbn [ineg iadd ile ilt array_get].
  rewrite !Z.add_opp_r. f_equal. f_equal. unfold pattern_alive.
  destruct (0 <=? i - tx) eqn:E1; [|done].
  destruct (i - tx <? pattern_width p); [|done].
  destruct (0 <=? j - ty) eqn:E2; [|done].
  destruct (j - ty <? pattern_height p); [|done]. cbn [andb].
  apply Z.leb_le in E1, E2.
  destruct (Z.ltb_spec (j - ty) 0); [lia|].
  destruct (pattern_grid p !! Z.to_nat (j - ty)) as [r|]; [|done].
  cbn [array_get]. destruct (Z.ltb_spec (i - tx) 0); [lia|]. done.
Qed.

(** X7. Seeding a grid from a pattern filler places the pattern with its
    corner at (floor((W - w) / 2), floor((H - h) / 2)): a cell is alive
    exactly when the pattern is alive at the coordinates shifted back by
    that offset, and dead where the shifted coordinates leave the
    pattern. *)
Theorem createGrid_centres_the_pattern (g : GameOfLife) (p : pattern)
    (w h : nat) :
  array_length (width g) w -> array_length (height g) h ->
  let tx := (Z.of_nat w - pattern_width p) / 2 in
  let ty := (Z.of_nat h - pattern_height p) / 2 in
  exists t,
    createGrid g (Some (rle_predicate p)) (None, None) =
      Ok (set_grid g
            (seeded (fun i j => pattern_alive p (i - tx) (j - ty)) w h), t).
Proof.
  intros [Hw Hwmax] [Hh Hhmax] tx ty.
  set (Inv := fun t : translation =>
                t = (None, None) \/ t = (Some (Int tx), Some (Int ty))).
  unfold createGrid, bind at 1. rewrite Hw, new_Array_Int by done. cbn [lift].
  unfold bind at 1.
  edestruct (for_range_push_inv (S := translation) (A := list Z) Inv)
    as (t & -> & _); [by left | | by exists t].
  intros i cells t Ht _. unfold bind at 1.
  rewrite Hh, new_Array_Int by done. cbn [lift]. unfold bind at 1.
  edestruct (for_range_push_inv (S := translation) (A := Z) Inv)
    as (t' & -> & Ht'); [exact Ht | | by exists t'].
  intros j r t1 Ht1 _. unfold bind at 1.
  rewrite (rle_predicate_centred p g (Z.of_nat w) (Z.of_nat h)) by done.
  eexists. split; [done | by right].
Qed.

Lemma createGrid_centres_the_pattern_witness :
  exists t,
    createGrid block_4x4 (Some (rle_predicate dot)) (None, None) =
      Ok (set_grid block_4x4
            [[0; 0; 0; 0]; [0; 1; 0; 0]; [0; 0; 0; 0]; [0; 0; 0; 0]], t).
Proof.
  apply (createGrid_centres_the_pattern block_4x4 dot 4 4);
    (split; [reflexivity | vm_compute; discriminate]).
Defined.

(** *** More on the decoder *)






(** X10. A text that contains no [!] never decodes to a grid. *)
Theorem loadRle_needs_the_end_tag (runLengthEncoded : string)
    (grid : list row) :
  "!"%char ∉ list_ascii_of_string runLengthEncoded ->
  loadRle runLengthEncoded <> Ok (Some grid).
Proof. apply loadRle_without_end_tag. Qed.

Lemma loadRle_needs_the_end_tag_witness :
  loadRle ("x = 2, y = 1" ++ nl ++ "2o") <> Ok (Some [[Num alive; Num alive]]).
Proof.
  apply loadRle_needs_the_end_tag. vm_compute.
  intros H. repeat (apply elem_of_cons in H as [H|H]; [discriminate H|]).
  by apply elem_of_nil in H.
Defined.







(** X13. A character of the body that is no tag and no blank, met before
    any [!], ends the decoding with a [SyntaxError]. *)
Theorem rle_chars_rejects_other_characters (before after : text) (c : ascii)
    (st st' : rle_state) :
  rle_chars before st = Ok (Next st') -> is_tag c = false ->
  rle_chars (before ++ c :: after) st = Throw (SyntaxError "Invalid tag!").
Proof.
  intros Hbefore Hc. rewrite rle_chars_app, Hbefore. cbn [rle_chars].
  unfold is_tag in Hc. unfold rle_char.
  repeat (apply orb_false_elim in Hc as [Hc ?]).
  assert (Ascii.eqb c " " || Ascii.eqb c (ascii_of_nat 13)
          || Ascii.eqb c (ascii_of_nat 9) = false) as ->.
  { apply orb_false_intro; [apply orb_false_intro|]; done. }
  repeat match goal with H : _ = false |- _ => rewrite H; clear H end.
  done.
Qed.

Lemma rle_chars_rejects_other_characters_witness :
  rle_chars (list_ascii_of_string "3b$ x 2o!")
    (body_start [[Num dead]; [Num dead]]) =
    Throw (SyntaxError "Invalid tag!").
Proof.
  exact (rle_chars_rejects_other_characters
           (list_ascii_of_string "3b$ ") (list_ascii_of_string " 2o!") "x"
           (body_start [[Num dead]; [Num dead]])
           {| rle_grid := [[Num dead]; [Num dead]];
              runCount := 0; x := 0; y := 1 |} eq_refl eq_refl).
Defined.

(** *** The header pattern *)

Lemma match_star_run {R} (class : ascii -> bool) (run rest : text)
    (k : text -> option R) (r : R) :
  Forall (fun c => class c = true) run ->
  match rest with c :: _ => class c = false | [] => True end ->
  k rest = Some r ->
  match_star class (run ++ rest) k = Some r.
Proof.
  intros Hrun Hrest Hk. induction Hrun as [|c run Hc _ IH]; cbn.
  - destruct rest as [|c rest]; [done|]. cbn. by rewrite Hrest.
  - by rewrite Hc, IH.
Qed.

Lemma digit_is_no_space (c : ascii) : is_digit c = true -> is_space c = false.
Proof.
  unfold is_digit, is_space. intros H. apply andb_prop in H as [H1 H2].
  apply Nat.leb_le in H1, H2.
  destruct (Nat.leb_spec 9 (nat_of_ascii c)); destruct (Nat.leb_spec (nat_of_ascii c) 13);
    destruct (Nat.eqb_spec (nat_of_ascii c) 32); cbn; try done; lia.
Qed.

Lemma seq_chr {R} (c : ascii) (r' : regex) (s : text) (caps : captures)
    (k : text -> captures -> option R) :
  match_regex (Seq (Chr c) r') (c :: s) caps k = match_regex r' s caps k.
Proof. cbn. by rewrite Ascii.eqb_refl. Qed.

Lemma seq_star {R} (class : ascii -> bool) (r' : regex) (run rest : text)
    (caps : captures) (k : text -> captures -> option R) (r : R) :
  Forall (fun c => class c = true) run ->
  match rest with c :: _ => class c = false | [] => True end ->
  match_regex r' rest caps k = Some r ->
  match_regex (Seq (Star class) r') (run ++ rest) caps k = Some r.
Proof. intros Hrun Hrest Hk. cbn. by apply match_star_run. Qed.

Lemma seq_group_plus {R} (name : string) (class : ascii -> bool) (r' : regex)
    (c : ascii) (run rest : text) (caps : captures)
    (k : text -> captures -> option R) (r : R) :
  class c = true -> Forall (fun c => class c = true) run ->
  match rest with c :: _ => class c = false | [] => True end ->
  match_regex r' rest ((name, c :: run) :: caps) k = Some r ->
  match_regex (Seq (Group name (Plus class)) r') (c :: run ++ rest) caps k =
    Some r.
Proof.
  intros Hc Hrun Hrest Hk. cbn. rewrite Hc.
  apply match_star_run; [done | done |].
  replace (take _ _) with (c :: run); [done|].
  rewrite length_app.
  replace (S (length run + length rest) - length rest)%nat
    with (S (length run)) by lia.
  cbn. f_equal. symmetry. by apply take_app_length.
Qed.

Lemma match_header (w h : text) :
  digits w -> digits h ->
  match_regex header_pattern (plain_header w h) []
    (fun _ caps => Some caps) =
  Some [("height"%string, h); ("width"%string, w)].
Proof.
  intros [Hw Hwd] [Hh Hhd].
  destruct w as [|cw w]; [done|]. destruct h as [|ch h]; [done|].
  apply Forall_cons in Hwd as [Hcw Hwd]. apply Forall_cons in Hhd as [Hch Hhd].
  unfold header_pattern, plain_header. cbn [seq_regex list_ascii_of_string app].
  apply (seq_star _ _ []); [done | done |]. rewrite seq_chr.
  apply (seq_star _ _ [" "%char]); [by repeat constructor | done |].
  rewrite seq_chr.
  apply (seq_star _ _ [" "%char]);
    [by repeat constructor | by apply digit_is_no_space |].
  apply seq_group_plus; [done | done | done |]. rewrite seq_chr.
  apply (seq_star _ _ [" "%char]); [by repeat constructor | done |].
  rewrite seq_chr.
  apply (seq_star _ _ [" "%char]); [by repeat constructor | done |].
  rewrite seq_chr.
  apply (seq_star _ _ [" "%char]);
    [by repeat constructor | by apply digit_is_no_space |].
  match goal with
  | |- match_regex (Seq (Group ?name (Plus ?class)) ?r') _ ?caps ?k = Some ?r =>
      pose proof (seq_group_plus name class r' ch h [] caps k r Hch Hhd I)
        as Hlast
  end.
  rewrite app_nil_r in Hlast. apply Hlast. reflexivity.
Qed.

(** X14. A header line of the plain form [x = <w>, y = <h>], for any two
    non-empty digit strings, is recognised and declares the numbers that
    the strings denote. *)
Theorem header_dimensions_plain (w h : text) :
  digits w -> digits h ->
  header_dimensions (plain_header w h) =
    Some (Number_of_digits w, Number_of_digits h).
Proof.
  intros Hw Hh. unfold header_dimensions.
  assert (exec header_pattern (plain_header w h) =
            Some [("height"%string, h); ("width"%string, w)]) as ->.
  { pose proof (match_header w h Hw Hh) as Hm.
    unfold plain_header in *. cbn [list_ascii_of_string app] in *.
    cbn [exec]. by rewrite Hm. }
  reflexivity.
Qed.

Lemma header_dimensions_plain_witness :
  header_dimensions (list_ascii_of_string "x = 120, y = 45") = Some (120, 45).
Proof.
  apply (header_dimensions_plain (list_ascii_of_string "120")
           (list_ascii_of_string "45"));
    (split; [done | by repeat constructor]).
Defined.

(** *** More on the run loop *)

(** X15. From construction on, as long as [stop] is not called, at most
    one step is scheduled at any time, and none while [#handler] is
    undefined, whatever the order of the calls of [start] and of the
    firing of timeouts and animation frames. *)
Theorem run_without_stop_is_single_flight (g : GameOfLife)
    (events : list event) :
  forallb (fun e => negb (is_stop e)) events = true ->
  (pending_steps (run (boot g) events) <= 1)%nat /\
  (handler (game (run (boot g) events)) = None ->
   pending_steps (run (boot g) events) = O).
Proof.
  intros Hev. apply single_flight_without_stop; [apply single_flight_boot | done].
Qed.

Lemma run_without_stop_is_single_flight_witness :
  let w := run (boot block_4x4)
             [CallStart; CallStart; TimerFires 1; CallStart; FrameFires;
              FrameFires; CallStart; TimerFires 2] in
  (pending_steps w <= 1)%nat /\
  (handler (game w) = None -> pending_steps w = O).
Proof. apply (run_without_stop_is_single_flight block_4x4). reflexivity. Defined.

Lemma tracks_boot (g : GameOfLife) : handler_tracks_timers (boot g).
Proof. split; [cbn; lia | by left]. Qed.

Lemma tracks_start (w : browser) :
  single_flight w -> handler_tracks_timers w -> handler_tracks_timers (start w).
Proof.
  intros [_ Hidle] Htr. unfold start.
  destruct (handler (game w)) eqn:Hh; [done|]. destruct Htr as [Hnext Ht].
  specialize (Hidle eq_refl). unfold pending_steps in Hidle.
  assert (timers w = []) as Hnone by (destruct (timers w); [done | cbn in Hidle; lia]).
  split; cbn; [lia|]. right. exists (next_timer w). rewrite Hnone. cbn.
  repeat split; lia.
Qed.

Lemma tracks_timer_fires (id : nat) (w : browser) :
  handler_tracks_timers w -> handler_tracks_timers (timer_fires id w).
Proof.
  intros [Hnext Ht]. unfold timer_fires.
  destruct (bool_decide (id ∈ timers w)) eqn:Hin; [|by split].
  apply bool_decide_eq_true in Hin. split; [done|]. left. cbn.
  destruct Ht as [Ht|(t & Ht & _)]; rewrite Ht in *.
  - by apply elem_of_nil in Hin.
  - apply list_elem_of_singleton in Hin as ->. unfold clearTimeout.
    rewrite filter_cons_False; [done | intros H; by apply H].
Qed.

Lemma tracks_frame_fires (w : browser) :
  single_flight w -> handler_tracks_timers w ->
  handler_tracks_timers (frame_fires w).
Proof.
  intros Hsf Htr. pose proof Hsf as [Hle Hidle]. pose proof Htr as [Hnext Ht].
  unfold frame_fires.
  destruct (frames w) as [|[|] rest] eqn:Hf; [done | by split |].
  unfold pending_steps in Hle. rewrite Hf in Hle.
  rewrite filter_cons_True in Hle by done. cbn in Hle.
  assert (Hnone : timers w = []) by (destruct (timers w); [done | cbn in Hle; lia]).
  destruct (update (game w)) as [[g count]|e].
  - assert (Hidle' : handler_tracks_timers
                       {| game := set_handler g None; timers := timers w;
                          frames := rest; next_timer := next_timer w |}).
    { split; [done | by left]. }
    destruct (0 <? count); [|done].
    unfold start. cbn. split; cbn; [lia|]. right. exists (next_timer w).
    rewrite Hnone. cbn. repeat split; lia.
  - split; [done | by left].
Qed.

Lemma tracks_without_stop (events : list event) (w : browser) :
  single_flight w -> handler_tracks_timers w ->
  forallb (fun e => negb (is_stop e)) events = true ->
  single_flight (run w events) /\ handler_tracks_timers (run w events).
Proof.
  revert w. induction events as [|e events IH]; intros w Hsf Htr Hev; [done|].
  cbn in Hev. apply andb_prop in Hev as [He Hev]. cbn.
  destruct e; cbn in He; try done; cbn; apply IH; try done.
  - by apply single_flight_start.
  - by apply tracks_start.
  - by apply single_flight_timer_fires.
  - by apply tracks_timer_fires.
  - by apply single_flight_frame_fires.
  - by apply tracks_frame_fires.
Qed.

(** X16. The first [stop] after construction, at whatever moment, clears
    [#handler] and leaves no timeout pending; the grid is not touched. *)
Theorem first_stop_clears_the_timeout (g : GameOfLife) (events : list event) :
  forallb (fun e => negb (is_stop e)) events = true ->
  let w := run (boot g) events in
  timers (stop w) = [] /\ handler (game (stop w)) = None /\
  grid (game (stop w)) = grid (game w).
Proof.
  intros Hev w.
  destruct (tracks_without_stop events (boot g)) as [_ [_ Ht]];
    [apply single_flight_boot | apply tracks_boot | done |].
  fold w in Ht. unfold stop. cbn. repeat split; try done.
  destruct Ht as [Ht|(id & Ht & Hh & Hid)]; rewrite Ht.
  - by destruct (handler (game w)) as [[|]|].
  - rewrite Hh. destruct (Nat.eqb_spec id 0); [lia|].
    unfold clearTimeout. rewrite filter_cons_False; [done | intros H; by apply H].
Qed.

Lemma first_stop_clears_the_timeout_witness :
  let w := run (boot block_4x4) [CallStart; TimerFires 1; FrameFires;
                                 FrameFires] in
  timers (stop w) = [] /\ handler (game (stop w)) = None /\
  grid (game (stop w)) = grid (game w).
Proof. apply (first_stop_clears_the_timeout block_4x4). reflexivity. Defined.

Lemma update_set_handler (g : GameOfLife) (h : option nat) :
  update (set_handler g h) =
  match update g with
  | Ok (g', count) => Ok (set_handler g' h, count)
  | Throw e => Throw e
  end.
Proof.
  unfold update, createGrid, bind, lift, ret.
  change (width (set_handler g h)) with (width g).
  destruct (new_Array (width g)) as [w|e]; [|done].
  set (loop := for_range w 0 _ [] 0) at 2.
  change (for_range w 0 _ [] 0) with loop.
  by destruct loop as [[cells count]|e].
Qed.

(** X17. One turn of the loop is one generation. From an idle engine,
    [start], the timeout and the animation frame together replace the
    grid by the grid of [update]; the loop is armed again with a new
    timeout when the count is positive, and the engine is idle again
    when no cell is left. *)
Theorem loop_turn_is_one_generation (w : browser) (g' : GameOfLife)
    (count : Z) :
  handler (game w) = None -> timers w = [] -> frames w = [] ->
  update (game w) = Ok (g', count) ->
  let w' := run w [CallStart; TimerFires (next_timer w); FrameFires] in
  grid (game w') = grid g' /\ frames w' = [] /\
  if 0 <? count
  then handler (game w') = Some (S (next_timer w)) /\
       timers w' = [S (next_timer w)]
  else handler (game w') = None /\ timers w' = [].
Proof.
  intros Hh Ht Hf Hup. cbn [run foldl step].
  set (n := next_timer w).
  assert (Hstart : start w =
            {| game := set_handler (game w) (Some n); timers := [n];
               frames := []; next_timer := S n |}).
  { unfold start. by rewrite Hh, Ht, Hf. }
  rewrite Hstart.
  assert (Hfire : timer_fires n
            {| game := set_handler (game w) (Some n); timers := [n];
               frames := []; next_timer := S n |} =
            {| game := set_handler (game w) (Some n); timers := [];
               frames := [StepFrame]; next_timer := S n |}).
  { unfold timer_fires, clearTimeout. cbn [timers game frames next_timer app].
    rewrite bool_decide_eq_true_2 by (by left).
    by rewrite filter_cons_False by (intros H; by apply H). }
  rewrite Hfire. unfold frame_fires. cbn [frames game timers next_timer].
  rewrite update_set_handler, Hup.
  destruct (0 <? count); cbn; done.
Qed.

Lemma loop_turn_is_one_generation_witness :
  let w := run (boot block_4x4) [FrameFires] in
  let w' := run w [CallStart; TimerFires (next_timer w); FrameFires] in
  grid (game w') = grid block_4x4 /\ frames w' = [] /\
  if 0 <? 4
  then handler (game w') = Some (S (next_timer w)) /\
       timers w' = [S (next_timer w)]
  else handler (game w') = None /\ timers w' = [].
Proof.
  exact (loop_turn_is_one_generation (run (boot block_4x4) [FrameFires])
           block_4x4 4 eq_refl eq_refl eq_refl eq_refl).
Defined.

(** *** The random filler *)

(** X18. [randomFiller] accepts exactly the numbers of [0, 1]: for NaN,
    the infinities and every number outside the interval it throws a
    RangeError. *)
Theorem randomFiller_range (percentage : number) :
  (randomFiller percentage = Ok (random_predicate percentage) /\
   exists q, percentage = Fin q /\ (0 <= q)%Q /\ (q <= 1)%Q) \/
  (randomFiller percentage =
     Throw (RangeError "Percentage should be in [0, 1]!") /\
   ~ exists q, percentage = Fin q /\ (0 <= q)%Q /\ (q <= 1)%Q).
Proof.
  destruct percentage as [| | |q];
    try (right; split; [done | by intros (q' & Hq & _)]).
  unfold randomFiller, num_lt. cbn [isNaN orb].
  destruct (Qle_bool 0 q) eqn:H0; destruct (Qle_bool q 1) eqn:H1; cbn.
  - apply Qle_bool_iff in H0, H1. left. split; [done|]. by exists q.
  - right. split; [done|]. intros (q' & [= <-] & _ & H%Qle_bool_iff). congruence.
  - right. split; [done|]. intros (q' & [= <-] & H%Qle_bool_iff & _). congruence.
  - right. split; [done|]. intros (q' & [= <-] & H%Qle_bool_iff & _). congruence.
Qed.

(** A loop whose turn [k] starts in the state [st k], appends a known
    item and leaves the state [st (k + 1)]. *)
Lemma for_range_indexed {S A} (body : Z -> list A -> M S (list A))
    (item : Z -> A) (st : Z -> S) (n : nat) :
  forall start acc,
    (forall k acc, start <= k < start + Z.of_nat n ->
       body k acc (st k) = Ok (acc ++ [item k], st (k + 1))) ->
    for_range n start body acc (st start) =
      Ok (acc ++ (item <$> seqZ start (Z.of_nat n)), st (start + Z.of_nat n)).
Proof.
  induction n as [|n IH]; intros start acc Hbody.
  - cbn. by rewrite app_nil_r, Z.add_0_r.
  - rewrite seqZ_succ. cbn [for_range]. unfold bind at 1.
    rewrite Hbody by lia. rewrite IH by (intros; apply Hbody; lia).
    cbn. rewrite <- app_assoc. do 3 f_equal. lia.
Qed.

Lemma after_draws_0 (src : random_source) : after_draws 0 src = src.
Proof. destruct src. unfold after_draws. cbn. f_equal. lia. Qed.

Lemma createGrid_random (g : GameOfLife) (p : number) (w h : nat)
    (src : random_source) :
  array_length (width g) w -> array_length (height g) h ->
  createGrid g (Some (random_predicate p)) src =
    Ok (set_grid g (seeded (fun i j => num_lt (Fin (draw_of_cell src h i j)) p)
                      w h),
        after_draws (Z.of_nat w * Z.of_nat h) src).
Proof.
  intros [Hw Hwmax] [Hh Hhmax]. unfold createGrid, bind at 1.
  rewrite Hw, new_Array_Int by done. cbn [lift]. unfold bind at 1.
  match goal with
  | |- match for_range w 0 ?body [] src with _ => _ end = _ =>
      pose proof (for_range_indexed body
             (fun i => (fun j => if num_lt (Fin (draw_of_cell src h i j)) p
                                 then alive else dead)
                         <$> seqZ 0 (Z.of_nat h))
             (fun i => after_draws (i * Z.of_nat h) src) w 0 []) as Hloop
  end.
  cbn beta in Hloop. change (0 * Z.of_nat h) with 0 in Hloop.
  rewrite after_draws_0 in Hloop. rewrite Hloop.
  - unfold ret, seeded. cbn.
    by replace (Z.of_nat w * Z.of_nat h) with ((0 + Z.of_nat w) * Z.of_nat h) by lia.
  - intros i cells Hi. unfold bind at 1. rewrite Hh, new_Array_Int by done.
    cbn [lift]. unfold bind at 1.
    replace (after_draws (i * Z.of_nat h) src)
      with (after_draws (i * Z.of_nat h + 0) src) by (f_equal; lia).
    rewrite (for_range_indexed _
               (fun j => if num_lt (Fin (draw_of_cell src h i j)) p
                         then alive else dead)
               (fun j => after_draws (i * Z.of_nat h + j) src)).
    + unfold ret, after_draws. cbn.
      by replace (i * Z.of_nat h + (0 + Z.of_nat h)) with ((i + 1) * Z.of_nat h) by lia.
    + intros j row Hj. unfold bind, random_predicate, Math_random, ret. cbn.
      unfold draw_of_cell, after_draws. cbn. do 3 f_equal.
      assert (0 <= i * Z.of_nat h) by nia. lia.
Qed.

(** X19. Seeding with the random filler takes one number of
    [Math.random] per cell, in the order of the loops: cell [(i, j)] of
    a grid of height H is alive exactly when the draw number [i * H + j]
    is below the percentage. *)
Theorem random_seeding_takes_one_draw_per_cell (g : GameOfLife) (p : number)
    (w h : nat) (src : random_source) :
  array_length (width g) w -> array_length (height g) h ->
  createGrid g (Some (random_predicate p)) src =
    Ok (set_grid g (seeded (fun i j => num_lt (Fin (draw_of_cell src h i j)) p)
                      w h),
        after_draws (Z.of_nat w * Z.of_nat h) src).
Proof. apply createGrid_random. Qed.

Lemma random_seeding_takes_one_draw_per_cell_witness :
  createGrid torus_3x3 (Some (random_predicate (Fin (1 # 2)))) alternating =
    Ok (set_grid torus_3x3
          (seeded (fun i j =>
                     num_lt (Fin (draw_of_cell alternating 3 i j)) (Fin (1 # 2)))
             3 3),
        after_draws (Z.of_nat 3 * Z.of_nat 3) alternating).
Proof.
  apply random_seeding_takes_one_draw_per_cell;
    (split; [reflexivity | vm_compute; discriminate]).
Defined.

Lemma seeded_constant (answer : Z -> Z -> bool) (b : bool) (w h : nat) :
  (forall i j, answer i j = b) ->
  seeded answer w h = replicate w (replicate h (if b then alive else dead)).
Proof.
  intros Hb. unfold seeded.
  rewrite (const_fmap _ _ (replicate h (if b then alive else dead))).
  - by rewrite length_seqZ, Nat2Z.id.
  - intros _ i _. rewrite (const_fmap _ _ (if b then alive else dead)).
    + by rewrite length_seqZ, Nat2Z.id.
    + intros _ j _. by rewrite Hb.
Qed.

(** X20. The two ends of the interval. When [Math.random] returns
    numbers of [0, 1), the filler for percentage 0 seeds a grid without
    a live cell and the filler for percentage 1 a grid without a dead
    cell. *)
Theorem random_seeding_extremes (g : GameOfLife) (w h : nat)
    (src : random_source) :
  unit_draws src ->
  array_length (width g) w -> array_length (height g) h ->
  (exists f, randomFiller (Fin 0) = Ok f /\
     createGrid g (Some f) src =
       Ok (set_grid g (replicate w (replicate h dead)),
           after_draws (Z.of_nat w * Z.of_nat h) src)) /\
  (exists f, randomFiller (Fin 1) = Ok f /\
     createGrid g (Some f) src =
       Ok (set_grid g (replicate w (replicate h alive)),
           after_draws (Z.of_nat w * Z.of_nat h) src)).
Proof.
  intros Hunit Hw Hh. split.
  - exists (random_predicate (Fin 0)). split; [done|].
    rewrite (createGrid_random g _ w h) by done.
    rewrite (seeded_constant _ false); [done|].
    intros i j. unfold num_lt, draw_of_cell.
    destruct (Hunit (drawn src + Z.to_nat (i * Z.of_nat h + j))%nat) as [H0 _].
    apply Qle_bool_iff in H0. by rewrite H0.
  - exists (random_predicate (Fin 1)). split; [done|].
    rewrite (createGrid_random g _ w h) by done.
    rewrite (seeded_constant _ true); [done|].
    intros i j. unfold num_lt, draw_of_cell.
    destruct (Hunit (drawn src + Z.to_nat (i * Z.of_nat h + j))%nat) as [_ H1].
    destruct (Qle_bool 1 _) eqn:Hle; [|done].
    apply Qle_bool_iff in Hle. by apply Qlt_not_le in H1.
Qed.

Lemma unit_draws_alternating : unit_draws alternating.
Proof. intros k. cbn. by destruct (Nat.even k). Qed.

Lemma random_seeding_extremes_witness :
  (exists f, randomFiller (Fin 0) = Ok f /\
     createGrid torus_3x3 (Some f) alternating =
       Ok (set_grid torus_3x3 (replicate 3 (replicate 3 dead)),
           after_draws (Z.of_nat 3 * Z.of_nat 3) alternating)) /\
  (exists f, randomFiller (Fin 1) = Ok f /\
     createGrid torus_3x3 (Some f) alternating =
       Ok (set_grid torus_3x3 (replicate 3 (replicate 3 alive)),
           after_draws (Z.of_nat 3 * Z.of_nat 3) alternating)).
Proof.
  apply random_seeding_extremes;
    [exact unit_draws_alternating | |];
    (split; [reflexivity | vm_compute; discriminate]).
Defined.

(** *** Drawing *)

(** A loop whose turns append known items and keep the state. *)
Lemma for_range_extend {S A} (body : Z -> list A -> M S (list A))
    (items : Z -> list A) (n : nat) :
  forall start acc s,
    (forall k acc, start <= k < start + Z.of_nat n ->
       body k acc s = Ok (acc ++ items k, s)) ->
    for_range n start body acc s =
      Ok (acc ++ (k ← seqZ start (Z.of_nat n); items k), s).
Proof.
  induction n as [|n IH]; intros start acc s Hbody.
  - cbn. by rewrite app_nil_r.
  - rewrite seqZ_succ. cbn [for_range]. unfold bind at 1.
    rewrite Hbody by lia. rewrite IH by (intros; apply Hbody; lia).
    cbn. by rewrite <- app_assoc.
Qed.

Lemma draw_calls (g : GameOfLife) (w h : nat) :
  grid_shape g -> width g = Int (Z.of_nat w) -> height g = Int (Z.of_nat h) ->
  draw g = Some (Ok (set_fillStyle (cellColor g) ::
                     (i ← seqZ 0 (Z.of_nat w); j ← seqZ 0 (Z.of_nat h);
                      [paint g i j (Num (Spec.stored g i j))]))).
Proof.
  intros Hs Hw Hh. unfold draw. rewrite Hw, Hh. cbn [turns].
  rewrite !Nat2Z.id.
  destruct w as [|w']; [done|]. set (w := Datatypes.S w') in *.
  rewrite (for_range_extend _
             (fun i => j ← seqZ 0 (Z.of_nat h);
                       [paint g i j (Num (Spec.stored g i j))])).
  - by destruct w.
  - intros i calls Hi.
    rewrite (for_range_extend _
               (fun j => [paint g i j (Num (Spec.stored g i j))])); [done|].
    intros j calls' Hj. unfold bind, lift, ret.
    destruct (stored_inside g i j w h) as [-> _]; try done; lia.
Qed.




Lemma total_app {A} (measure : A -> Z) (l k : list A) :
  Spec.total measure (l ++ k) = Spec.total measure l + Spec.total measure k.
Proof.
  unfold Spec.total. induction l as [|a l IH]; cbn; [lia | rewrite IH; lia].
Qed.

Lemma total_bind {A B} (measure : B -> Z) (f : A -> list B) (l : list A) :
  Spec.total measure (k ← l; f k) =
  Spec.total (fun k => Spec.total measure (f k)) l.
Proof.
  induction l as [|a l IH]; [done|].
  change (Spec.total measure (f a ++ (k ← l; f k)) =
          Spec.total measure (f a) +
          Spec.total (fun k => Spec.total measure (f k)) l).
  by rewrite total_app, IH.
Qed.

Lemma total_fmap {A B} (measure : B -> Z) (f : A -> B) (l : list A) :
  Spec.total measure (f <$> l) = Spec.total (fun k => measure (f k)) l.
Proof.
  induction l as [|a l IH]; [done|].
  change (measure (f a) + Spec.total measure (f <$> l) =
          measure (f a) + Spec.total (fun k => measure (f k)) l).
  by rewrite IH.
Qed.

Lemma total_ext {A} (m1 m2 : A -> Z) (l : list A) :
  (forall a, a ∈ l -> m1 a = m2 a) -> Spec.total m1 l = Spec.total m2 l.
Proof.
  induction l as [|a l IH]; intros Hm; [done|].
  change (m1 a + Spec.total m1 l = m2 a + Spec.total m2 l).
  rewrite Hm by left. f_equal. apply IH. intros b Hb. apply Hm. by right.
Qed.

(** A well-shaped grid is the table of its stored states. *)
Lemma grid_as_stored (g : GameOfLife) (w h : nat) :
  grid_shape g -> width g = Int (Z.of_nat w) -> height g = Int (Z.of_nat h) ->
  grid g = (fun i => (fun j => Spec.stored g i j) <$> seqZ 0 (Z.of_nat h))
             <$> seqZ 0 (Z.of_nat w).
Proof.
  intros Hs Hw Hh. pose proof Hs as (w' & [Hw' _] & Hlen & Hrows).
  rewrite Hw in Hw'. injection Hw' as Hw'. apply Nat2Z.inj in Hw'. subst w'.
  apply list_eq. intros i. rewrite list_lookup_fmap.
  destruct (decide (i < w)%nat) as [Hi|Hi].
  - rewrite (lookup_seqZ_lt 0) by lia. cbn.
    destruct (lookup_lt_is_Some_2 (grid g) i) as [r Hr]; [lia|]. rewrite Hr.
    f_equal. pose proof (Forall_lookup_1 _ _ _ _ Hrows Hr) as (h' & [Hh' _] & Hrl & _).
    rewrite Hh in Hh'. injection Hh' as Hh'. apply Nat2Z.inj in Hh'. subst h'.
    apply list_eq. intros j. rewrite list_lookup_fmap.
    destruct (decide (j < h)%nat) as [Hj|Hj].
    + rewrite (lookup_seqZ_lt 0) by lia. cbn.
      destruct (lookup_lt_is_Some_2 r j) as [c Hc]; [lia|]. rewrite Hc.
      unfold Spec.stored. rewrite !Z.add_0_l, !Nat2Z.id, Hr. cbn. by rewrite Hc.
    + rewrite (lookup_seqZ_ge 0) by lia. cbn. apply lookup_ge_None. lia.
  - rewrite (lookup_seqZ_ge 0) by lia. cbn. apply lookup_ge_None. lia.
Qed.

Lemma filled_paint (g : GameOfLife) (i j c : Z) :
  filled [paint g i j (Num c)] = Spec.live c.
Proof.
  unfold filled, paint, Spec.live, alive. cbn.
  destruct c as [|[| |]|]; done.
Qed.

Lemma draw_fills_live_cells (g : GameOfLife) :
  grid_shape g ->
  exists calls, draw g = Some (Ok calls) /\
                filled calls = Spec.live_cells (grid g).
Proof.
  intros Hs.
  destruct (grid_shape_dimensions g Hs) as (w & Hw & Hlen & [->|(h & Hh & _)]).
  - exists [set_fillStyle (cellColor g)]. unfold draw. rewrite Hw. cbn.
    split; [done|]. by destruct (grid g).
  - eexists. split; [by apply (draw_calls g w h)|].
    rewrite (grid_as_stored g w h) at 1 by done.
    assert (Hstyle : forall style l, filled (set_fillStyle style :: l) = filled l)
      by done.
    rewrite Hstyle. unfold filled at 1, Spec.live_cells.
    rewrite total_bind, total_fmap. apply total_ext. intros i _.
    rewrite total_bind, total_fmap. apply total_ext. intros j _.
    apply filled_paint.
Qed.

(** X22. The frame callback of [start] draws and then steps; the next
    drawing after a step that returned [count] fills exactly [count]
    rectangles. *)
Theorem draw_after_update_fills_the_count (g g' : GameOfLife) (count : Z) :
  update g = Ok (g', count) ->
  exists calls, draw g' = Some (Ok calls) /\ filled calls = count.
Proof.
  intros Hup. pose proof (update_shape g g' count Hup) as (Hs & _).
  destruct (draw_fills_live_cells g' Hs) as (calls & Hdraw & Hfilled).
  exists calls. split; [done|].
  by rewrite (update_returns_live_cells g g' count Hup).
Qed.

Lemma draw_after_update_fills_the_count_witness :
  exists calls, draw block_4x4 = Some (Ok calls) /\ filled calls = 4.
Proof.
  exact (draw_after_update_fills_the_count block_4x4 block_4x4 4 eq_refl).
Defined.
